(** * pyApi_vs_pySql: word statistics through the DataFrame API and through SQL

    A shallow embedding of [pyApi_vs_pySql.py].  The script reads a text
    file line by line, normalises and tokenises every line, and computes
    three statistics (total word count, top-20 word frequency, top-20
    unordered word-pair frequency) twice: once with PySpark DataFrame
    method chains and once with SQL strings over temporary views.  It then
    compares the two answers and exports them.

    Modelling conventions.
    - A line, a word and a pair key are [string]s (sequences of 8-bit
      characters, the bytes of the UTF-8 text).  Spark lowercases by the
      Unicode rules (Java's [String.toLowerCase]; the locale of the JVM is
      taken to be one without rules of its own, that is, not Turkish,
      Azeri or Lithuanian).  [lower] folds the capitals of ASCII and the
      two characters outside ASCII whose lowercase form holds a letter of
      ASCII: U+0130 becomes i followed by U+0307, and U+212A becomes k.
      The bytes of every other character outside ASCII are left alone: its
      lowercase form is outside ASCII too, and the regular expression
      deletes the one as it deletes the other.
    - A DataFrame is the list of its rows.  Spark fixes the order of rows
      only where the plan sorts them, and then only up to ties of the sort
      key: [ordered_desc] is therefore a relation between a table and the
      row sequences the engine may return for it.
    - Counts are [Z] (Spark's LongType, Python's int).
    - The temporary views and the registered UDF live in a [session] that
      the SQL statements are evaluated against; an SQL statement that does
      not resolve yields [None]. *)

From Stdlib Require Import String Ascii List ZArith NArith Bool Lia.
From Stdlib Require Import Permutation Sorted.
Import ListNotations.

Local Open Scope string_scope.
Local Open Scope list_scope.
Local Open Scope Z_scope.

Set Implicit Arguments.

(** ** Characters and the column functions of the tokenizer *)

Module Chars.

Definition code (c : ascii) : N := N_of_ascii c.

(** [A-Z] *)
Definition is_upper (c : ascii) : bool :=
  (65 <=? code c)%N && (code c <=? 90)%N.

(** [a-z] *)
Definition is_az (c : ascii) : bool :=
  (97 <=? code c)%N && (code c <=? 122)%N.

(** The class [\s] of the regular expressions: space, tab, line feed,
    vertical tab, form feed, carriage return. *)
Definition is_space (c : ascii) : bool :=
  (code c =? 32)%N || ((9 <=? code c)%N && (code c <=? 13)%N).

(** The one character that [trim] removes: the space, code 32. *)
Definition is_blank (c : ascii) : bool := (code c =? 32)%N.

Definition is_letter (c : ascii) : bool := is_upper c || is_az c.

Definition lower_char (c : ascii) : ascii :=
  if is_upper c then ascii_of_N (code c + 32) else c.

End Chars.
Import Chars.

(** The UTF-8 bytes of U+0130, capital I with a dot above. *)
Definition is_dotted_I (c1 c2 : ascii) : bool :=
  (code c1 =? 196)%N && (code c2 =? 176)%N.

(** The UTF-8 bytes of U+212A, the Kelvin sign. *)
Definition is_kelvin (c1 c2 c3 : ascii) : bool :=
  (code c1 =? 226)%N && (code c2 =? 132)%N && (code c3 =? 170)%N.

(** The string starts with one of these two characters, the only ones
    outside ASCII whose lowercase form holds a letter of ASCII. *)
Definition special_head (s : string) : bool :=
  match s with
  | String c1 (String c2 r2) =>
      is_dotted_I c1 c2
      || match r2 with
         | String c3 _ => is_kelvin c1 c2 c3
         | EmptyString => false
         end
  | _ => false
  end.

(** [lower(col)]: the capitals of ASCII become small letters, U+0130
    becomes i followed by the combining dot U+0307 (bytes 204, 135), and
    U+212A becomes k.  Every other character outside ASCII has a
    lowercase form outside ASCII; its bytes are kept as they are, since
    the regular expression deletes the ones and the others alike. *)
Fixpoint lower (s : string) : string :=
  match s with
  | EmptyString => EmptyString
  | String c1 r1 =>
      match r1 with
      | String c2 r2 =>
          if is_dotted_I c1 c2 then
            String "i" (String (ascii_of_N 204) (String (ascii_of_N 135) (lower r2)))
          else
            match r2 with
            | String c3 r3 =>
                if is_kelvin c1 c2 c3 then String "k" (lower r3)
                else String (lower_char c1) (lower r1)
            | EmptyString => String (lower_char c1) (lower r1)
            end
      | EmptyString => String (lower_char c1) (lower r1)
      end
  end.

(** A string in lowercase form: no capital of ASCII and neither of the two
    special characters. *)
Fixpoint normal (s : string) : bool :=
  match s with
  | EmptyString => true
  | String c r => negb (is_upper c) && negb (special_head s) && normal r
  end.

(** [regexp_replace(col, cls, "")] for a pattern [cls] that is a single
    character class: every character of the class is deleted. *)
Fixpoint regexp_replace (cls : ascii -> bool) (s : string) : string :=
  match s with
  | EmptyString => EmptyString
  | String c r =>
      if cls c then regexp_replace cls r else String c (regexp_replace cls r)
  end.

(** The class [[^a-z\s]] of the script. *)
Definition not_az_space (c : ascii) : bool := negb (is_az c || is_space c).

(** Removal of the leading, then of the trailing characters satisfying [p]. *)
Fixpoint strip_left (p : ascii -> bool) (s : string) : string :=
  match s with
  | EmptyString => EmptyString
  | String c r => if p c then strip_left p r else s
  end.

Fixpoint strip_right (p : ascii -> bool) (s : string) : string :=
  match s with
  | EmptyString => EmptyString
  | String c r =>
      match strip_right p r with
      | EmptyString => if p c then EmptyString else String c EmptyString
      | r' => String c r'
      end
  end.

Definition strip (p : ascii -> bool) (s : string) : string :=
  strip_right p (strip_left p s).

(** [trim(col)]: Spark removes the space character (code 32) from both
    ends, and no other white space. *)
Definition trim (s : string) : string := strip is_blank s.

(** [split(col, sep+)] for a separator class [sep], with Spark's limit -1:
    the pieces between the maximal runs of separators, a leading and a
    trailing empty piece included; a string without separator is its own
    single piece, the empty string too.  [cur] is the piece being read and
    [in_run] tells that the previous character was a separator. *)
Fixpoint split_go (sep : ascii -> bool) (cur : string) (in_run : bool)
         (s : string) : list string :=
  match s with
  | EmptyString => [cur]
  | String c r =>
      if sep c then
        if in_run then split_go sep cur true r
        else cur :: split_go sep EmptyString true r
      else split_go sep (cur ++ String c EmptyString)%string false r
  end.

Definition split (sep : ascii -> bool) (s : string) : list string :=
  split_go sep EmptyString false s.

(** [explode(col)]: one row per element of the array of each row; a row
    whose array is empty gives no row. *)
Definition explode {A : Type} (rows : list (list A)) : list A := concat rows.

(** Every character of [s] satisfies [p]. *)
Fixpoint all_chars (p : ascii -> bool) (s : string) : bool :=
  match s with
  | EmptyString => true
  | String c r => p c && all_chars p r
  end.

(** A line without any letter: no letter of ASCII, and neither U+0130 nor
    U+212A, which Spark lowercases to a letter of ASCII.  Punctuation,
    digits, white space and the other characters outside ASCII may occur. *)
Fixpoint letter_free (line : string) : bool :=
  match line with
  | EmptyString => true
  | String c r => negb (is_letter c) && negb (special_head line) && letter_free r
  end.

Definition no_letter (line : string) : Prop := letter_free line = true.

(** A line whose only white space is the space character. *)
Definition spaces_only (line : string) : Prop :=
  all_chars (fun c => negb (is_space c) || is_blank c) line = true.

(** A word made of the letters a to z only (the empty word included). *)
Definition az_word (w : string) : Prop := all_chars is_az w = true.

(** A word in which the bar of the pair keys does not occur. *)
Definition bar_free (w : string) : Prop :=
  all_chars (fun c => negb (c =? "|")%char) w = true.

(** ** Load and preprocess *)

(** [spark.read.text(...)]: one row per line of the file. *)
Definition textDF (corpus : list string) : list string := corpus.

Definition cleanedDF (corpus : list string) : list string :=
  map (fun line => regexp_replace not_az_space (lower line)) (textDF corpus).

(** The line-token view: one row per line, holding the words of the line. *)
Definition tokenized_df (corpus : list string) : list (list string) :=
  map (fun cleanLines => split is_space (trim cleanLines)) (cleanedDF corpus).

Definition nonblank (word : string) : bool := negb (word =? "")%string.

(** The flat-token view: one row per word, blanks filtered out. *)
Definition words_df (corpus : list string) : list string :=
  filter nonblank (explode (tokenized_df corpus)).

(** ** The pairing function *)

(** Python's [sorted]: a stable sort by the order [leb]. *)
Fixpoint insert {A : Type} (leb : A -> A -> bool) (x : A) (l : list A) : list A :=
  match l with
  | [] => [x]
  | y :: r => if leb x y then x :: l else y :: insert leb x r
  end.

Definition sorted {A : Type} (leb : A -> A -> bool) (l : list A) : list A :=
  fold_right (insert leb) [] l.

(** Python's [set] of a list of strings, as the list of its distinct
    elements; [generate_pairs] sorts it at once, so that the order in which
    a set is traversed plays no part. *)
Definition set_ (words : list string) : list string := nodup string_dec words.

(** [itertools.combinations_with_replacement(pool, 2)]: the pairs
    [(pool[i], pool[j])] with [i <= j], in the order of the indices. *)
Fixpoint combinations_with_replacement {A : Type} (pool : list A) : list (A * A) :=
  match pool with
  | [] => []
  | x :: r => map (pair x) pool ++ combinations_with_replacement r
  end.

(** The f-string with the two words around a bar. *)
Definition pair_key (p : string * string) : string :=
  (fst p ++ "|" ++ snd p)%string.

(** The pairs of words behind the keys that [generate_pairs] returns. *)
Definition word_pairs (words : list string) : list (string * string) :=
  combinations_with_replacement (sorted String.leb (set_ words)).

Definition generate_pairs (words : list string) : list string :=
  map pair_key (word_pairs words).

(** The order of Python on strings, and the lexicographic order on pairs
    of strings that it induces. *)
Definition string_le (a b : string) : Prop := String.leb a b = true.
Definition string_lt (a b : string) : Prop := String.compare a b = Lt.

Definition pair_lt (p q : string * string) : Prop :=
  string_lt (fst p) (fst q) \/ (fst p = fst q /\ string_lt (snd p) (snd q)).

(** ** The engine: counting, grouping, ordering *)

(** [df.count()]: the number of rows. *)
Definition count {A : Type} (rows : list A) : Z := Z.of_nat (length rows).

(** The aggregate COUNT( * ): a counter that every row increments. *)
Definition count_star {A : Type} (rows : list A) : Z :=
  fold_left (fun n _ => n + 1) rows 0.

(** One more occurrence of [key] in a table of counts. *)
Fixpoint bump (key : string) (table : list (string * Z)) : list (string * Z) :=
  match table with
  | [] => [(key, 1)]
  | (k, n) :: rest =>
      if (k =? key)%string then (k, n + 1) :: rest else (k, n) :: bump key rest
  end.

(** Grouping by the key and counting each group: one row per distinct key.
    The order of the rows of the result means nothing. *)
Definition group_count (rows : list string) : list (string * Z) :=
  fold_left (fun table key => bump key table) rows [].

Definition by_count_desc (x y : string * Z) : Prop := snd y <= snd x.

(** Sorting by the count, descending: the engine returns the rows of the
    table in some order in which the counts never increase.  Which of two
    rows with the same count comes first is not fixed. *)
Definition ordered_desc (table out : list (string * Z)) : Prop :=
  Permutation table out /\ StronglySorted by_count_desc out.

(** The same comparison as a test: one way to sort by the count. *)
Definition count_geb (x y : string * Z) : bool := snd y <=? snd x.

Definition limit {A : Type} (n : nat) (rows : list A) : list A := firstn n rows.

(** The rows with at least a given count. *)
Definition at_least (c : Z) (x : string * Z) : bool := c <=? snd x.

(** A limit of [k] rows cuts a table cleanly when some count separates the
    rows kept from the rows cut off: the rows with at least that count are
    as many as the limit keeps. *)
Definition clean_cut (k : nat) (table : list (string * Z)) : Prop :=
  exists c, length (filter (at_least c) table) = Nat.min k (length table).

(** The cut is clean and no two rows kept have the same count. *)
Definition no_tie_kept (k : nat) (table : list (string * Z)) : Prop :=
  exists c,
    length (filter (at_least c) table) = Nat.min k (length table)
    /\ NoDup (map snd (filter (at_least c) table)).

(** ** Path A: the DataFrame API *)

(** [words_df.count()] *)
Definition pySparkWordCount (corpus : list string) : Z := count (words_df corpus).

(** [withColumnRenamed] changes the name of a column and no row. *)
Definition withColumnRenamed (old new : string) (rows : list (string * Z))
  : list (string * Z) := rows.

(** The results that
    [words_df.groupBy("word").count().withColumnRenamed("count", "frequency")
       .orderBy(col("frequency").desc()).limit(20)]
    may materialise to. *)
Definition pysparkFrequency (corpus : list string) (res : list (string * Z)) : Prop :=
  exists out,
    ordered_desc
      (withColumnRenamed "count" "frequency" (group_count (words_df corpus))) out
    /\ res = limit 20 out.

(** [[(row["word"], row["frequency"]) for row in pysparkFrequency.collect()]] *)
Definition pysparkRes (corpus : list string) (res : list (string * Z)) : Prop :=
  pysparkFrequency corpus res.

(** [tokenized_df.withColumn("pairs", getPairs(col("words")))]: every row
    gets the pairs of its words as a second column. *)
Definition withColumn_pairs (getPairs : list string -> list string)
           (rows : list (list string)) : list (list string * list string) :=
  map (fun words => (words, getPairs words)) rows.

(** [.select(explode(col("pairs")).alias("pair"))] *)
Definition pySparkPair (corpus : list string) : list string :=
  explode (map snd (withColumn_pairs generate_pairs (tokenized_df corpus))).

(** [pySparkPair.groupBy("pair").count().orderBy(col("count").desc()).limit(20)] *)
Definition pysparkPairFreq (corpus : list string) (res : list (string * Z)) : Prop :=
  exists out,
    ordered_desc (group_count (pySparkPair corpus)) out /\ res = limit 20 out.

(** Python's order on the tuples [(pair, count)]: by the string, then by
    the count. *)
Definition tuple_leb (x y : string * Z) : bool :=
  match String.compare (fst x) (fst y) with
  | Lt => true
  | Eq => snd x <=? snd y
  | Gt => false
  end.

(** [sorted([(row["pair"], row["count"]) for row in pysparkPairFreq.collect()])] *)
Definition pysparkPairRes (corpus : list string) (res : list (string * Z)) : Prop :=
  exists rows, pysparkPairFreq corpus rows /\ res = sorted tuple_leb rows.

(** ** Path B: SQL over temporary views *)

(** What a view or the result of a query holds: the names of its columns
    and its rows. *)
Inductive frame : Type :=
| Longs (col : string) (rows : list Z)
| Strings (col : string) (rows : list string)
| Arrays (col : string) (rows : list (list string))
| Counted (key cnt : string) (rows : list (string * Z)).

(** The Spark session: the temporary views and the functions registered
    under a name; a later entry of the same name hides the earlier one. *)
Record session : Type := Session {
  views : list (string * frame);
  udfs : list (string * (list string -> list string))
}.

Definition empty_session : session := {| views := []; udfs := [] |}.

Fixpoint lookup {V : Type} (name : string) (entries : list (string * V)) : option V :=
  match entries with
  | [] => None
  | (n, v) :: rest => if (n =? name)%string then Some v else lookup name rest
  end.

Definition createOrReplaceTempView (name : string) (df : frame) (s : session) : session :=
  {| views := (name, df) :: views s; udfs := udfs s |}.

Definition udf_register (name : string) (f : list string -> list string)
           (s : session) : session :=
  {| views := views s; udfs := (name, f) :: udfs s |}.

(** The select list of the queries of the script. *)
Inductive select_item : Type :=
| Col (name : string)
| CountStar (alias : string)
| ExplodeUdf (udf arg alias : string).

(** SELECT items FROM view [GROUP BY column] [ORDER BY column DESC] [LIMIT n] *)
Record query : Type := Query {
  q_select : list select_item;
  q_from : string;
  q_group_by : option string;
  q_order_by_desc : option string;
  q_limit : option nat
}.

(** FROM, GROUP BY and SELECT: the table of the query before it is ordered
    and cut.  A view, a function or a column that does not resolve gives
    [None], and so does a query outside the forms that the script uses. *)
Definition sql_table (s : session) (q : query) : option frame :=
  match lookup (q_from q) (views s) with
  | None => None
  | Some src =>
      match q_select q, q_group_by q, src with
      | [CountStar alias], None, Longs _ rows => Some (Longs alias [count_star rows])
      | [CountStar alias], None, Strings _ rows => Some (Longs alias [count_star rows])
      | [CountStar alias], None, Arrays _ rows => Some (Longs alias [count_star rows])
      | [CountStar alias], None, Counted _ _ rows => Some (Longs alias [count_star rows])
      | [Col key; CountStar alias], Some g, Strings col rows =>
          if ((key =? col) && (g =? col))%string
          then Some (Counted key alias (group_count rows))
          else None
      | [ExplodeUdf udf arg alias], None, Arrays col rows =>
          if (arg =? col)%string then
            match lookup udf (udfs s) with
            | Some f => Some (Strings alias (explode (map f rows)))
            | None => None
            end
          else None
      | _, _, _ => None
      end
  end.

Definition limit_opt {A : Type} (n : option nat) (rows : list A) : list A :=
  match n with
  | Some k => limit k rows
  | None => rows
  end.

(** A query with neither ORDER BY nor LIMIT: its result is its table. *)
Definition sql_unordered (s : session) (q : query) : option frame :=
  match q_order_by_desc q, q_limit q with
  | None, None => sql_table s q
  | _, _ => None
  end.

(** The frames that a query may materialise to.  With ORDER BY on the
    count column the rows come in an order admitted by [ordered_desc], and
    LIMIT keeps the first of them. *)
Definition sql (s : session) (q : query) (res : frame) : Prop :=
  match q_order_by_desc q with
  | None => sql_unordered s q = Some res
  | Some c =>
      match sql_table s q with
      | Some (Counted key cnt rows) =>
          (c =? cnt)%string = true /\
          exists out,
            ordered_desc rows out
            /\ res = Counted key cnt (limit_opt (q_limit q) out)
      | _ => False
      end
  end.

(** CREATE OR REPLACE TEMP VIEW name AS query *)
Definition create_view_as (name : string) (q : query) (s : session) : option session :=
  match sql_unordered s q with
  | Some df => Some (createOrReplaceTempView name df s)
  | None => None
  end.

(** [df.collect()[0][col]] on a frame of one long column. *)
Definition first_long (col : string) (df : frame) : option Z :=
  match df with
  | Longs c rows => if (c =? col)%string then nth_error rows 0 else None
  | _ => None
  end.

(** [[(row[key], row[cnt]) for row in df.collect()]] *)
Definition collect_counted (key cnt : string) (df : frame) : option (list (string * Z)) :=
  match df with
  | Counted k c rows => if ((k =? key) && (c =? cnt))%string then Some rows else None
  | _ => None
  end.

(** The session after [words_df.createOrReplaceTempView("wordTable_temp")],
    [tokenized_df.createOrReplaceTempView("lineTable_temp")] and
    [spark.udf.register("generate_pairs_udf", getPairs)]. *)
Definition spark (corpus : list string) : session :=
  udf_register "generate_pairs_udf" generate_pairs
    (createOrReplaceTempView "lineTable_temp" (Arrays "words" (tokenized_df corpus))
       (createOrReplaceTempView "wordTable_temp" (Strings "word" (words_df corpus))
          empty_session)).

(** SELECT COUNT( * ) AS total_words FROM wordTable_temp *)
Definition sqlWordCount_query : query :=
  {| q_select := [CountStar "total_words"]; q_from := "wordTable_temp";
     q_group_by := None; q_order_by_desc := None; q_limit := None |}.

(** [sqlWordCount.collect()[0]["total_words"]] *)
Definition sqlCountVal (corpus : list string) : option Z :=
  match sql_unordered (spark corpus) sqlWordCount_query with
  | Some df => first_long "total_words" df
  | None => None
  end.

(** SELECT word, COUNT( * ) AS frequency FROM wordTable_temp
    GROUP BY word ORDER BY frequency DESC LIMIT 20 *)
Definition sqlFrequency_query : query :=
  {| q_select := [Col "word"; CountStar "frequency"]; q_from := "wordTable_temp";
     q_group_by := Some "word"; q_order_by_desc := Some "frequency";
     q_limit := Some 20%nat |}.

Definition sqlFrequency (corpus : list string) (res : frame) : Prop :=
  sql (spark corpus) sqlFrequency_query res.

(** [[(row["word"], row["frequency"]) for row in sqlFrequency.collect()]] *)
Definition sqlRes (corpus : list string) (res : list (string * Z)) : Prop :=
  exists df, sqlFrequency corpus df /\ collect_counted "word" "frequency" df = Some res.

(** SELECT explode(generate_pairs_udf(words)) AS pair FROM lineTable_temp *)
Definition pair_table_query : query :=
  {| q_select := [ExplodeUdf "generate_pairs_udf" "words" "pair"];
     q_from := "lineTable_temp";
     q_group_by := None; q_order_by_desc := None; q_limit := None |}.

(** The session after CREATE OR REPLACE TEMP VIEW pair_table AS ... *)
Definition spark_pairs (corpus : list string) : option session :=
  create_view_as "pair_table" pair_table_query (spark corpus).

(** SELECT pair, COUNT( * ) AS count FROM pair_table
    GROUP BY pair ORDER BY count DESC LIMIT 20 *)
Definition sqlPairFreq_query : query :=
  {| q_select := [Col "pair"; CountStar "count"]; q_from := "pair_table";
     q_group_by := Some "pair"; q_order_by_desc := Some "count";
     q_limit := Some 20%nat |}.

Definition sqlPairFreq (corpus : list string) (res : frame) : Prop :=
  exists s, spark_pairs corpus = Some s /\ sql s sqlPairFreq_query res.

(** [sorted([(row["pair"], row["count"]) for row in sqlPairFreq.collect()])] *)
Definition sqlPairRes (corpus : list string) (res : list (string * Z)) : Prop :=
  exists df rows,
    sqlPairFreq corpus df /\ collect_counted "pair" "count" df = Some rows
    /\ res = sorted tuple_leb rows.

(** ** The run of the script: what it prints and writes *)

Module Script.

(** An argument of [print]: a literal, a number, a run time, a list of
    rows; the parts of an f-string follow each other in one argument. *)
Inductive piece : Type :=
| Text (s : string)
| Int (n : Z)
| Seconds (t : Z)
| Rows (rows : list (string * Z)).

(** The four DataFrames that are shown and written; each such action
    evaluates the plan anew. *)
Inductive plan : Type :=
| PysparkFrequency | SqlFrequency | PysparkPairFreq | SqlPairFreq.

Inductive csv : Type :=
| WordCountRow (source : string) (total_words : Z)
| Of (df : plan)
| Runtimes (rows : list (string * string * Z)).

Inductive event : Type :=
| Print (args : list (list piece))
| Show (df : plan)
| WriteCsv (path : string) (data : csv).

(** What the engine and the clock hand to the script: the values that
    its variables of these names hold.  A run time is a number of
    ten-thousandths of a second, as [round(..., 4)] leaves it. *)
Record observed : Type := Observed {
  pySparkWordCount : Z;
  pysparkTime : Z;
  sqlCountVal : Z;
  sqlTime : Z;
  pysparkFrequencyTime : Z;
  sqlFrequencyTime : Z;
  sqlRes : list (string * Z);
  pysparkRes : list (string * Z);
  pysparkPairTime : Z;
  sqlPairTime : Z;
  pysparkPairRes : list (string * Z);
  sqlPairRes : list (string * Z)
}.

Definition nl : string := String (ascii_of_nat 10) EmptyString.

Definition line (s : string) : event := Print [[Text s]].
Definition blank : event := Print [].

Definition tuple_eqb (x y : string * Z) : bool :=
  (fst x =? fst y)%string && (snd x =? snd y).

(** Python's [==] on two lists of tuples. *)
Fixpoint rows_eqb (l1 l2 : list (string * Z)) : bool :=
  match l1, l2 with
  | [], [] => true
  | x :: r1, y :: r2 => tuple_eqb x y && rows_eqb r1 r2
  | _, _ => false
  end.

Definition preamble : list event :=
  [ line "YES: .docx converted to .txt";
    line "YES: Text loaded and preprocessed" ].

(** *** 1: total word count *)

Definition count_report (o : observed) : list event :=
  [ line (nl ++ "--- Total Word Count ---");
    blank;
    Print [[Text "API total words:"]; [Int (pySparkWordCount o)]];
    Print [[Text "API time:"]; [Seconds (pysparkTime o)]; [Text "seconds"]];
    blank;
    Print [[Text "SQL total words:"]; [Int (sqlCountVal o)]];
    Print [[Text "SQL time:"]; [Seconds (sqlTime o)]; [Text "seconds"]];
    blank ].

Definition count_mismatch (o : observed) : list event :=
  [ Print [[Text "NO!: Mismatch! SQL: "; Int (sqlCountVal o);
            Text ", API: "; Int (pySparkWordCount o)]] ].

Definition count_check (o : observed) : list event :=
  if sqlCountVal o =? pySparkWordCount o
  then [ Print [[Text "YES!: Word counts match! Total words: ";
                 Int (sqlCountVal o)]] ]
  else count_mismatch o.

Definition count_end : list event :=
  [ blank; line "_____________________________________________________"; blank; blank ].

Definition count_stage (o : observed) : list event :=
  count_report o ++ count_check o ++ count_end.

(** *** 2: word frequency *)

Definition frequency_header : event := line (nl ++ "--- Word Frequency(API) ---").

Definition frequency_report (o : observed) : list event :=
  [ frequency_header;
    Show PysparkFrequency;
    Print [[Text "API frequency time:"]; [Seconds (pysparkFrequencyTime o)];
           [Text "seconds"]];
    blank; blank;
    line (nl ++ "--- Word Frequency(SQL) ---");
    Show SqlFrequency;
    Print [[Text "SQL frequency time:"]; [Seconds (sqlFrequencyTime o)];
           [Text "seconds"]];
    blank ].

Definition frequency_mismatch (o : observed) : list event :=
  [ line "NO!: SQL and API word frequency results DO NOT match!";
    Print [[Text "SQL Top 20:"]; [Rows (sqlRes o)]];
    Print [[Text "API Top 20:"]; [Rows (pysparkRes o)]] ].

Definition frequency_check (o : observed) : list event :=
  if rows_eqb (sqlRes o) (pysparkRes o)
  then [ line "YES!: SQL and API word frequency results MATCH for top 20 words." ]
  else frequency_mismatch o.

Definition frequency_end : list event :=
  [ line "_____________________________________________________"; blank; blank ].

Definition frequency_stage (o : observed) : list event :=
  frequency_report o ++ frequency_check o ++ frequency_end.

(** *** 3: word pairs *)

Definition pairs_header : event :=
  line (nl ++ "--- Word Pairs (PySpark API + SQL, Unordered) ---").

Definition pairs_report (o : observed) : list event :=
  [ pairs_header;
    line (nl ++ "Top 20 Word Pairs (API):");
    Show PysparkPairFreq;
    Print [[Text "API word pair time:"]; [Seconds (pysparkPairTime o)];
           [Text "seconds"]];
    blank; blank;
    line (nl ++ "Top 20 Word Pairs (SQL):");
    Show SqlPairFreq;
    Print [[Text "SQL word pair time:"]; [Seconds (sqlPairTime o)];
           [Text "seconds"]] ].

Definition pairs_mismatch (o : observed) : list event :=
  [ line "NO!: Word pair results DO NOT match!";
    Print [[Text "API Top 20:"]; [Rows (pysparkPairRes o)]];
    Print [[Text "SQL Top 20:"]; [Rows (sqlPairRes o)]] ].

Definition pairs_check (o : observed) : list event :=
  if rows_eqb (pysparkPairRes o) (sqlPairRes o)
  then [ line "YES!: Word pair results MATCH between API and SQL." ]
  else pairs_mismatch o.

Definition pairs_end : list event := [ line "------------------------------------------------" ].

Definition pairs_stage (o : observed) : list event :=
  pairs_report o ++ pairs_check o ++ pairs_end.

(** *** Export *)

Definition runtime_data (o : observed) : list (string * string * Z) :=
  [ ("word_count", "SQL", sqlTime o);
    ("word_count", "API", pysparkTime o);
    ("word_frequency", "SQL", sqlFrequencyTime o);
    ("word_frequency", "API", pysparkFrequencyTime o);
    ("word_pairs", "SQL", sqlPairTime o);
    ("word_pairs", "API", pysparkPairTime o) ].

Definition export_header : event := line (nl ++ "--- Results to CSV Files ---").
Definition finished : event := line "results exported to CSV.".

Definition export_stage (o : observed) : list event :=
  [ export_header;
    WriteCsv "sql_word_count.csv" (WordCountRow "SQL" (sqlCountVal o));
    WriteCsv "api_word_count.csv" (WordCountRow "API" (pySparkWordCount o));
    WriteCsv "sql_word_frequency.csv" (Of SqlFrequency);
    WriteCsv "api_word_frequency.csv" (Of PysparkFrequency);
    WriteCsv "sql_word_pairs.csv" (Of SqlPairFreq);
    WriteCsv "api_word_pairs.csv" (Of PysparkPairFreq);
    line (nl ++ "--- Saving Runtime Comparison to CSV ---");
    WriteCsv "runtime_comparison.csv" (Runtimes (runtime_data o));
    finished ].

(** Everything the script prints and writes, in the order of the file. *)
Definition run (o : observed) : list event :=
  preamble ++ count_stage o ++ frequency_stage o ++ pairs_stage o
  ++ export_stage o.

End Script.

(** ** The tokenizer as the specification words it *)

Module Spec.

(** (3) trim leading and trailing white space *)
Definition trim_whitespace (s : string) : string := strip is_space s.

Definition emit (cur : string) : list string :=
  match cur with
  | EmptyString => []
  | _ => [cur]
  end.

(** (4) the words between the runs of white space, no empty string kept *)
Fixpoint scan (cur : string) (s : string) : list string :=
  match s with
  | EmptyString => emit cur
  | String c r =>
      if is_space c then emit cur ++ scan EmptyString r
      else scan (cur ++ String c EmptyString)%string r
  end.

(** (1) lowercase, (2) delete what is outside [a-z\s], (3) trim,
    (4) split on runs of white space, dropping empty strings. *)
Definition tokens (line : string) : list string :=
  scan EmptyString (trim_whitespace (regexp_replace not_az_space (lower line))).

(** *** The four steps, each written from its wording *)

(** (1) lowercase.  The table of the characters that have a lowercase form
    with a letter of ASCII in it: the capitals A to Z, U+0130 (lowercase i
    and the combining dot U+0307) and U+212A (lowercase k).  The lowercase
    forms of all other characters lie outside ASCII and are deleted by
    step (2); these characters are left as they are. *)
Definition dotted_I : string :=
  String (ascii_of_N 196) (String (ascii_of_N 176) EmptyString).

Definition i_dot : string :=
  String "i" (String (ascii_of_N 204) (String (ascii_of_N 135) EmptyString)).

Definition kelvin : string :=
  String (ascii_of_N 226) (String (ascii_of_N 132) (String (ascii_of_N 170) EmptyString)).

Definition letters (s : string) : list string :=
  map (fun c => String c EmptyString) (list_ascii_of_string s).

Definition case_table : list (string * string) :=
  combine (letters "ABCDEFGHIJKLMNOPQRSTUVWXYZ")
          (letters "abcdefghijklmnopqrstuvwxyz")
  ++ [ (dotted_I, i_dot); (kelvin, "k") ].

Fixpoint starts_with (key s : string) : bool :=
  match key with
  | EmptyString => true
  | String k key' =>
      match s with
      | String c s' => (k =? c)%char && starts_with key' s'
      | EmptyString => false
      end
  end.

Fixpoint find_entry (table : list (string * string)) (s : string)
  : option (string * string) :=
  match table with
  | [] => None
  | (upper, low) :: rest =>
      if starts_with upper s then Some (upper, low) else find_entry rest s
  end.

(** From left to right: where an entry of the table starts, its lowercase
    form is written and the entry passed over; any other character is
    copied.  [skip] counts the characters of an entry still to pass. *)
Fixpoint lowercase_from (skip : nat) (s : string) : string :=
  match s with
  | EmptyString => EmptyString
  | String c r =>
      match skip with
      | S k => lowercase_from k r
      | O =>
          match find_entry case_table s with
          | Some (upper, low) =>
              (low ++ lowercase_from (String.length upper - 1) r)%string
          | None => String c (lowercase_from O r)
          end
      end
  end.

Definition lowercase (s : string) : string := lowercase_from O s.

(** The white space of the class [\s]. *)
Definition white_space : list ascii :=
  [ " "%char; ascii_of_N 9; ascii_of_N 10; ascii_of_N 11; ascii_of_N 12;
    ascii_of_N 13 ].

Definition is_white (c : ascii) : bool := existsb (Ascii.eqb c) white_space.

(** (2) delete every character outside [a-z\s]. *)
Definition kept (c : ascii) : bool :=
  existsb (Ascii.eqb c) (list_ascii_of_string "abcdefghijklmnopqrstuvwxyz")
  || is_white c.

Definition delete_outside (s : string) : string :=
  string_of_list_ascii (filter kept (list_ascii_of_string s)).

(** (3) trim: the characters of the class [p] are dropped from the front,
    and from the front of the reversed text. *)
Fixpoint drop_while (p : ascii -> bool) (l : list ascii) : list ascii :=
  match l with
  | [] => []
  | c :: r => if p c then drop_while p r else l
  end.

Definition trim_of (p : ascii -> bool) (s : string) : string :=
  string_of_list_ascii
    (rev (drop_while p (rev (drop_while p (list_ascii_of_string s))))).

(** What [trim] removes: the space character. *)
Definition trim_spaces (s : string) : string :=
  trim_of (fun c => (c =? " ")%char) s.

(** What the claim has it remove: all white space. *)
Definition trim_white (s : string) : string := trim_of is_white s.

(** (4) split on runs of white space, read from the end of the text: a
    character that is no white space joins the piece that follows it; a
    white space that ends a run closes that piece and opens an empty one;
    a white space inside a run does nothing.  The empty text is one empty
    piece. *)
Fixpoint split_on_runs (s : string) : list string :=
  match s with
  | EmptyString => [EmptyString]
  | String c r =>
      if is_white c then
        match r with
        | String c' _ =>
            if is_white c' then split_on_runs r
            else EmptyString :: split_on_runs r
        | EmptyString => EmptyString :: split_on_runs r
        end
      else
        match split_on_runs r with
        | piece :: pieces => String c piece :: pieces
        | [] => [String c EmptyString]
        end
  end.

Definition discard_empty (pieces : list string) : list string :=
  filter (fun piece => match piece with EmptyString => false | _ => true end)
         pieces.

(** The row of a line in the line-token view, by the four steps with the
    trim of spaces. *)
Definition line_tokens (line : string) : list string :=
  split_on_runs (trim_spaces (delete_outside (lowercase line))).

(** The same with the trim of all white space, as the claim words step
    (3). *)
Definition claimed_line_tokens (line : string) : list string :=
  split_on_runs (trim_white (delete_outside (lowercase line))).

End Spec.

(** ** From the document to the lines of the text file *)









(** ** Measures used to state what the statistics count *)

(** Python's [w in row]. *)
Definition mem (w : string) (row : list string) : bool :=
  existsb (String.eqb w) row.

(** The rows of the line-token view that hold both words. *)
Definition rows_with (a b : string) (corpus : list string) : list (list string) :=
  filter (fun row => mem a row && mem b row) (tokenized_df corpus).

(** The number of rows of [rows] equal to [w]. *)
Definition occurrences (w : string) (rows : list string) : Z :=
  Z.of_nat (count_occ string_dec rows w).

Definition total (counts : list Z) : Z := fold_right Z.add 0 counts.

(** The files that a run writes, in order. *)
Fixpoint written (trace : list Script.event) : list string :=
  match trace with
  | [] => []
  | Script.WriteCsv path _ :: rest => path :: written rest
  | _ :: rest => written rest
  end.

(** * Properties *)

(** ** Lowercasing *)

Section Lowercase.

Lemma append_nil_r (s : string) : (s ++ "")%string = s.
Proof. induction s as [|c r IH]; simpl; [reflexivity | rewrite IH; reflexivity]. Qed.

Lemma append_assoc (s t u : string) : ((s ++ t) ++ u)%string = (s ++ t ++ u)%string.
Proof. induction s as [|c r IH]; simpl; [reflexivity | rewrite IH; reflexivity]. Qed.

Lemma lower_char_not_upper (c : ascii) : is_upper (lower_char c) = false.
Proof.
  destruct c as [b0 b1 b2 b3 b4 b5 b6 b7].
  destruct b0, b1, b2, b3, b4, b5, b6, b7; reflexivity.
Qed.

Lemma lower_char_idem (c : ascii) : lower_char (lower_char c) = lower_char c.
Proof.
  destruct c as [b0 b1 b2 b3 b4 b5 b6 b7].
  destruct b0, b1, b2, b3, b4, b5, b6, b7; reflexivity.
Qed.

Lemma lower_char_beyond (c : ascii) :
  (128 <=? code (lower_char c))%N = true -> lower_char c = c.
Proof.
  destruct c as [b0 b1 b2 b3 b4 b5 b6 b7].
  destruct b0, b1, b2, b3, b4, b5, b6, b7; intros H;
    (reflexivity || discriminate H).
Qed.

Lemma lower_char_fixed (c : ascii) : is_upper c = false -> lower_char c = c.
Proof. unfold lower_char. intros ->. reflexivity. Qed.

Lemma lower_step (c : ascii) (r : string) :
  special_head (String c r) = false ->
  lower (String c r) = String (lower_char c) (lower r).
Proof.
  destruct r as [|c2 [|c3 r3]]; simpl; try reflexivity.
  - rewrite orb_false_r. intros ->. reflexivity.
  - intros H. apply orb_false_iff in H as [-> ->]. reflexivity.
Qed.

Lemma special_head_first (c : ascii) (r : string) :
  special_head (String c r) = true -> (128 <=? code c)%N = true.
Proof.
  destruct r as [|c2 r2]; simpl; [discriminate|].
  unfold is_dotted_I, is_kelvin. intros H.
  apply orb_true_iff in H as [H | H].
  - apply andb_true_iff in H as [H _]. apply N.eqb_eq in H. rewrite H. reflexivity.
  - destruct r2 as [|c3 r3]; [discriminate|].
    apply andb_true_iff in H as [H _]. apply andb_true_iff in H as [H _].
    apply N.eqb_eq in H. rewrite H. reflexivity.
Qed.

(** A byte beyond ASCII at the head of the lowercase form was at the head
    of the string, which did not start with a special character. *)
Lemma lower_head_beyond (s t : string) (c : ascii) :
  lower s = String c t -> (128 <=? code c)%N = true ->
  exists r, s = String c r /\ t = lower r /\ special_head s = false.
Proof.
  intros E Hc. destruct s as [|c1 r1]; [discriminate|].
  destruct (special_head (String c1 r1)) eqn:Hs.
  - exfalso. destruct r1 as [|c2 r2]; [discriminate|]. simpl in E, Hs.
    destruct (is_dotted_I c1 c2).
    + inversion E; subst. discriminate Hc.
    + destruct r2 as [|c3 r3]; [discriminate|]. simpl in Hs.
      rewrite Hs in E. inversion E; subst. discriminate Hc.
  - rewrite (lower_step _ _ Hs) in E. inversion E; subst.
    rewrite (lower_char_beyond _ Hc). eauto.
Qed.

Lemma normal_fixed (s : string) : normal s = true -> lower s = s.
Proof.
  induction s as [|c r IH]; [reflexivity|].
  intros H. cbn [normal] in H.
  apply andb_true_iff in H as [H Hr]. apply andb_true_iff in H as [Hu Hs].
  apply negb_true_iff in Hu, Hs.
  rewrite (lower_step _ _ Hs), (lower_char_fixed _ Hu), (IH Hr). reflexivity.
Qed.

Lemma special_head_lower (c : ascii) (r : string) :
  special_head (String c r) = false ->
  special_head (String (lower_char c) (lower r)) = false.
Proof.
  intros Hs.
  destruct (special_head (String (lower_char c) (lower r))) eqn:E; [|reflexivity].
  exfalso.
  pose proof (special_head_first _ _ E) as Hc.
  pose proof (lower_char_beyond _ Hc) as Ec. rewrite Ec in E.
  destruct (lower r) as [|c2 t2] eqn:E2; [discriminate E|].
  simpl in E. apply orb_true_iff in E as [E | E].
  - assert (H2 : (128 <=? code c2)%N = true).
    { unfold is_dotted_I in E. apply andb_true_iff in E as [_ E].
      apply N.eqb_eq in E. rewrite E. reflexivity. }
    destruct (lower_head_beyond _ E2 H2) as [r2 [-> _]].
    simpl in Hs. rewrite E in Hs. discriminate Hs.
  - destruct t2 as [|c3 t3]; [discriminate E|].
    assert (H2 : (128 <=? code c2)%N = true).
    { unfold is_kelvin in E. apply andb_true_iff in E as [E _].
      apply andb_true_iff in E as [_ E].
      apply N.eqb_eq in E. rewrite E. reflexivity. }
    assert (H3 : (128 <=? code c3)%N = true).
    { unfold is_kelvin in E. apply andb_true_iff in E as [_ E].
      apply N.eqb_eq in E. rewrite E. reflexivity. }
    destruct (lower_head_beyond _ E2 H2) as [r2 [-> [Et _]]].
    symmetry in Et.
    destruct (lower_head_beyond _ Et H3) as [r3 [-> _]].
    simpl in Hs. rewrite E in Hs. rewrite orb_true_r in Hs. discriminate Hs.
Qed.

Lemma lower_normal_bounded (n : nat) (s : string) :
  (String.length s <= n)%nat -> normal (lower s) = true.
Proof.
  revert s. induction n as [|n IH]; intros s Hn.
  - destruct s; [reflexivity | simpl in Hn; lia].
  - destruct s as [|c1 r1]; [reflexivity|].
    simpl in Hn.
    destruct (special_head (String c1 r1)) eqn:Hs.
    + destruct r1 as [|c2 r2]; [discriminate|]. simpl in Hs |- *.
      destruct (is_dotted_I c1 c2).
      * cbn [normal]. rewrite (IH r2) by (simpl in Hn; lia).
        destruct (lower r2) as [|? [|? ?]]; reflexivity.
      * destruct r2 as [|c3 r3]; [discriminate|]. simpl in Hs |- *.
        rewrite Hs. cbn [normal].
        rewrite (IH r3) by (simpl in Hn; lia).
        destruct (lower r3) as [|? [|? ?]]; reflexivity.
    + rewrite (lower_step _ _ Hs). cbn [normal].
      rewrite lower_char_not_upper, (special_head_lower _ _ Hs).
      rewrite (IH r1) by lia. reflexivity.
Qed.

Lemma lower_normal (s : string) : normal (lower s) = true.
Proof. apply (lower_normal_bounded (n := String.length s)). lia. Qed.

Lemma lower_idem (s : string) : lower (lower s) = lower s.
Proof. apply normal_fixed, lower_normal. Qed.

End Lowercase.

(** ** The tokenizer *)

Section Tokenizer.

Lemma is_az_lower_char (c : ascii) : is_az (lower_char c) = is_letter c.
Proof.
  destruct c as [b0 b1 b2 b3 b4 b5 b6 b7].
  destruct b0, b1, b2, b3, b4, b5, b6, b7; reflexivity.
Qed.

Lemma is_space_lower_char (c : ascii) : is_space (lower_char c) = is_space c.
Proof.
  destruct c as [b0 b1 b2 b3 b4 b5 b6 b7].
  destruct b0, b1, b2, b3, b4, b5, b6, b7; reflexivity.
Qed.

Lemma is_blank_space (c : ascii) : is_blank c = true -> is_space c = true.
Proof. unfold is_blank, is_space. intros ->. reflexivity. Qed.

Lemma is_az_not_space (c : ascii) : is_az c = true -> is_space c = false.
Proof.
  unfold is_az, is_space. intros H.
  apply andb_true_iff in H as [H1 H2].
  apply N.leb_le in H1.
  apply orb_false_iff. split.
  - apply N.eqb_neq. lia.
  - apply andb_false_iff. right. apply N.leb_gt. lia.
Qed.

Lemma is_az_not_bar (c : ascii) : is_az c = true -> (c =? "|")%char = false.
Proof.
  intros H. apply Ascii.eqb_neq. intros ->. discriminate H.
Qed.

Lemma all_chars_impl (p q : ascii -> bool) (s : string) :
  (forall c, p c = true -> q c = true) ->
  all_chars p s = true -> all_chars q s = true.
Proof.
  intros Hpq. induction s as [|c r IH]; simpl; [reflexivity|].
  intros H. apply andb_true_iff in H as [Hc Hr].
  apply andb_true_iff. auto.
Qed.

Lemma all_chars_app (p : ascii -> bool) (s t : string) :
  all_chars p (s ++ t)%string = all_chars p s && all_chars p t.
Proof.
  induction s as [|c r IH]; simpl; [reflexivity|].
  rewrite IH. apply andb_assoc.
Qed.

Lemma all_chars_strip_left (p q : ascii -> bool) (s : string) :
  all_chars p s = true -> all_chars p (strip_left q s) = true.
Proof.
  induction s as [|c r IH]; simpl; [reflexivity|].
  intros H. destruct (q c); [|exact H].
  apply andb_true_iff in H as [_ Hr]. auto.
Qed.

Lemma all_chars_strip_right (p q : ascii -> bool) (s : string) :
  all_chars p s = true -> all_chars p (strip_right q s) = true.
Proof.
  induction s as [|c r IH]; simpl; [reflexivity|].
  intros H. apply andb_true_iff in H as [Hc Hr].
  specialize (IH Hr).
  destruct (strip_right q r) as [|c' r'].
  - destruct (q c); simpl; [reflexivity|]. rewrite Hc. reflexivity.
  - simpl. rewrite Hc. exact IH.
Qed.

Lemma all_chars_trim (p : ascii -> bool) (s : string) :
  all_chars p s = true -> all_chars p (trim s) = true.
Proof.
  intros H. unfold trim, strip.
  apply all_chars_strip_right, all_chars_strip_left, H.
Qed.

(** What the regular expression leaves: letters a to z and white space. *)
Lemma regexp_kept (s : string) :
  all_chars (fun c => is_az c || is_space c) (regexp_replace not_az_space s) = true.
Proof.
  induction s as [|c r IH]; simpl; [reflexivity|].
  unfold not_az_space at 1.
  destruct (is_az c || is_space c) eqn:E; simpl.
  - rewrite E. exact IH.
  - exact IH.
Qed.

Lemma cleaned_chars (line : string) :
  all_chars (fun c => is_az c || is_space c)
            (regexp_replace not_az_space (lower line)) = true.
Proof. apply regexp_kept. Qed.

(** On a line without letters it leaves white space only. *)
Lemma cleaned_no_letter (line : string) :
  no_letter line ->
  all_chars is_space (regexp_replace not_az_space (lower line)) = true.
Proof.
  unfold no_letter.
  induction line as [|c r IH]; [reflexivity|].
  intros H. cbn [letter_free] in H.
  apply andb_true_iff in H as [H Hr]. apply andb_true_iff in H as [Hc Hs].
  apply negb_true_iff in Hc, Hs.
  rewrite (lower_step _ _ Hs). cbn [regexp_replace].
  unfold not_az_space at 1.
  rewrite is_az_lower_char, Hc, is_space_lower_char. simpl.
  destruct (is_space c) eqn:E; simpl; auto.
  rewrite is_space_lower_char, E. simpl. auto.
Qed.

(** The pieces of a string of letters and white space are words of
    letters. *)
Lemma split_go_az (s cur : string) (b : bool) :
  all_chars (fun c => is_az c || is_space c) s = true ->
  az_word cur ->
  Forall az_word (split_go is_space cur b s).
Proof.
  revert cur b. unfold az_word.
  induction s as [|c r IH]; simpl; intros cur b Hs Hcur.
  - constructor; [exact Hcur | constructor].
  - apply andb_true_iff in Hs as [Hc Hr].
    destruct (is_space c) eqn:E.
    + destruct b.
      * apply IH; assumption.
      * constructor; [exact Hcur|]. apply IH; [assumption | reflexivity].
    + apply IH; [assumption|].
      rewrite all_chars_app, Hcur. simpl.
      rewrite orb_false_r in Hc. rewrite Hc. reflexivity.
Qed.

(** The pieces of a string of white space are empty. *)
Lemma split_go_spaces (s : string) (b : bool) :
  all_chars is_space s = true ->
  Forall (fun w => w = EmptyString) (split_go is_space EmptyString b s).
Proof.
  revert b.
  induction s as [|c r IH]; simpl; intros b Hs.
  - constructor; [reflexivity | constructor].
  - apply andb_true_iff in Hs as [Hc Hr]. rewrite Hc.
    destruct b.
    + apply IH, Hr.
    + constructor; [reflexivity|]. apply IH, Hr.
Qed.

Lemma split_go_not_nil (sep : ascii -> bool) (s cur : string) (b : bool) :
  split_go sep cur b s <> [].
Proof.
  revert cur b. induction s as [|c r IH]; intros cur b; simpl.
  - discriminate.
  - destruct (sep c); [destruct b|]; try apply IH. discriminate.
Qed.

Lemma emit_nonblank (cur : string) :
  (if nonblank cur then [cur] else []) = Spec.emit cur.
Proof. destruct cur; reflexivity. Qed.

(** Dropping the empty pieces of [split] leaves the words that [scan]
    reads. *)
Lemma filter_split_go (s cur : string) (b : bool) :
  (b = true -> cur = EmptyString) ->
  filter nonblank (split_go is_space cur b s) = Spec.scan cur s.
Proof.
  revert cur b.
  induction s as [|c r IH]; intros cur b Hb.
  - simpl. apply emit_nonblank.
  - simpl. destruct (is_space c).
    + destruct b.
      * rewrite (Hb eq_refl). simpl. apply IH. reflexivity.
      * simpl. rewrite (IH EmptyString true (fun _ => eq_refl)).
        destruct cur; reflexivity.
    + apply IH. discriminate.
Qed.

Lemma scan_strip_left (p : ascii -> bool) (s : string) :
  (forall c, p c = true -> is_space c = true) ->
  Spec.scan EmptyString (strip_left p s) = Spec.scan EmptyString s.
Proof.
  intros Hp. induction s as [|c r IH]; simpl; [reflexivity|].
  destruct (p c) eqn:E; [|reflexivity].
  rewrite (Hp c E). simpl. exact IH.
Qed.

Lemma scan_strip_right (p : ascii -> bool) (s cur : string) :
  (forall c, p c = true -> is_space c = true) ->
  Spec.scan cur (strip_right p s) = Spec.scan cur s.
Proof.
  intros Hp. revert cur.
  induction s as [|c r IH]; intros cur; simpl; [reflexivity|].
  destruct (strip_right p r) as [|c' r'] eqn:E.
  - destruct (p c) eqn:Ec.
    + rewrite (Hp c Ec). simpl. rewrite <- IH. simpl.
      rewrite app_nil_r. reflexivity.
    + simpl. destruct (is_space c); rewrite <- IH; reflexivity.
  - simpl. destruct (is_space c); rewrite <- IH; reflexivity.
Qed.

Lemma scan_strip (p : ascii -> bool) (s : string) :
  (forall c, p c = true -> is_space c = true) ->
  Spec.scan EmptyString (strip p s) = Spec.scan EmptyString s.
Proof.
  intros Hp. unfold strip.
  rewrite scan_strip_right by exact Hp. apply scan_strip_left, Hp.
Qed.

(** The non-empty words of a row of the line-token view. *)
Lemma row_tokens (line : string) :
  filter nonblank
    (split is_space (trim (regexp_replace not_az_space (lower line))))
  = Spec.tokens line.
Proof.
  unfold split, Spec.tokens, Spec.trim_whitespace, trim.
  rewrite filter_split_go by discriminate.
  rewrite scan_strip by exact is_blank_space.
  rewrite scan_strip by auto.
  reflexivity.
Qed.

Lemma words_df_cons (line : string) (corpus : list string) :
  words_df (line :: corpus) = Spec.tokens line ++ words_df corpus.
Proof.
  unfold words_df, explode, tokenized_df, cleanedDF, textDF. simpl.
  rewrite filter_app, row_tokens. reflexivity.
Qed.

End Tokenizer.

(** The two capitals outside ASCII that leave a letter behind: the bytes of
    U+0130 followed by "stanbul" give the word "istanbul", and the bytes of
    U+212A followed by "elvin" give the word "kelvin". *)
Lemma words_df_special_capitals :
  words_df [String (ascii_of_N 196) (String (ascii_of_N 176) "stanbul")]
  = ["istanbul"]
  /\ words_df [String (ascii_of_N 226)
                 (String (ascii_of_N 132) (String (ascii_of_N 170) "elvin"))]
     = ["kelvin"].
Proof. split; vm_compute; reflexivity. Qed.

(** ** The four steps of the tokenizer *)

Section Steps.

(** *** (1) lowercase *)

Lemma special_head_codes (c : ascii) (r : string) :
  special_head (String c r) = true -> code c = 196%N \/ code c = 226%N.
Proof.
  destruct r as [|c2 r2]; simpl; [discriminate|].
  unfold is_dotted_I, is_kelvin. intros H.
  apply orb_true_iff in H as [H | H].
  - apply andb_true_iff in H as [H _]. apply N.eqb_eq in H. auto.
  - destruct r2 as [|c3 r3]; [discriminate|].
    apply andb_true_iff in H as [H _]. apply andb_true_iff in H as [H _].
    apply N.eqb_eq in H. auto.
Qed.

Lemma find_entry_plain (c : ascii) (r : string) :
  code c <> 196%N -> code c <> 226%N ->
  Spec.find_entry Spec.case_table (String c r)
  = if is_upper c
    then Some (String c EmptyString, String (lower_char c) EmptyString)
    else None.
Proof.
  destruct c as [b0 b1 b2 b3 b4 b5 b6 b7].
  destruct b0, b1, b2, b3, b4, b5, b6, b7; intros H1 H2;
    try reflexivity; exfalso;
    first [apply H1; reflexivity | apply H2; reflexivity].
Qed.

Lemma code_eq (c : ascii) (n : N) : code c = n -> c = ascii_of_N n.
Proof. intros <-. symmetry. apply ascii_N_embedding. Qed.

Lemma lowercase_from_O (c : ascii) (r : string) :
  Spec.lowercase_from O (String c r)
  = match Spec.find_entry Spec.case_table (String c r) with
    | Some (upper, low) =>
        (low ++ Spec.lowercase_from (String.length upper - 1) r)%string
    | None => String c (Spec.lowercase_from O r)
    end.
Proof. reflexivity. Qed.

Lemma lowercase_lower_bounded (n : nat) (s : string) :
  (String.length s <= n)%nat -> Spec.lowercase_from O s = lower s.
Proof.
  revert s. induction n as [|n IH]; intros s Hn.
  - destruct s; [reflexivity | simpl in Hn; lia].
  - destruct s as [|c1 r1]; [reflexivity|]. simpl in Hn.
    destruct (N.eq_dec (code c1) 196) as [E1 | N1].
    + apply code_eq in E1. subst c1.
      destruct r1 as [|c2 r2]; [reflexivity|].
      destruct (N.eq_dec (code c2) 176) as [E2 | N2].
      * apply code_eq in E2. subst c2.
        destruct r2 as [|c3 r3]; [reflexivity|].
        cbn. f_equal. f_equal. f_equal.
        change (Spec.lowercase_from O (String c3 r3) = lower (String c3 r3)).
        apply IH. simpl in Hn |- *. lia.
      * assert (Hs : special_head (String (ascii_of_N 196) (String c2 r2)) = false).
        { simpl. unfold is_dotted_I, is_kelvin.
          apply N.eqb_neq in N2. rewrite N2.
          destruct r2; reflexivity. }
        rewrite (lower_step _ _ Hs).
        assert (Hf : Spec.find_entry Spec.case_table
                       (String (ascii_of_N 196) (String c2 r2)) = None).
        { clear - N2. destruct c2 as [b0 b1 b2 b3 b4 b5 b6 b7].
          destruct b0, b1, b2, b3, b4, b5, b6, b7;
            first [reflexivity | exfalso; apply N2; reflexivity]. }
        rewrite lowercase_from_O, Hf. f_equal.
        apply IH. lia.
    + destruct (N.eq_dec (code c1) 226) as [E1 | N1'].
      * apply code_eq in E1. subst c1.
        destruct r1 as [|c2 r2]; [reflexivity|].
        destruct (N.eq_dec (code c2) 132) as [E2 | N2].
        -- apply code_eq in E2. subst c2.
           destruct r2 as [|c3 r3]; [reflexivity|].
           destruct (N.eq_dec (code c3) 170) as [E3 | N3].
           ++ apply code_eq in E3. subst c3.
              destruct r3 as [|c4 r4]; [reflexivity|].
              cbn. f_equal.
              change (Spec.lowercase_from O (String c4 r4) = lower (String c4 r4)).
              apply IH. simpl in Hn |- *. lia.
           ++ assert (Hs : special_head
                             (String (ascii_of_N 226)
                                (String (ascii_of_N 132) (String c3 r3))) = false).
              { simpl. unfold is_kelvin. apply N.eqb_neq in N3. rewrite N3.
                reflexivity. }
              rewrite (lower_step _ _ Hs).
              assert (Hf : Spec.find_entry Spec.case_table
                             (String (ascii_of_N 226)
                                (String (ascii_of_N 132) (String c3 r3))) = None).
              { clear - N3. destruct c3 as [b0 b1 b2 b3 b4 b5 b6 b7].
                destruct b0, b1, b2, b3, b4, b5, b6, b7;
                  first [reflexivity | exfalso; apply N3; reflexivity]. }
              rewrite lowercase_from_O, Hf. f_equal.
              apply IH. lia.
        -- assert (Hs : special_head (String (ascii_of_N 226) (String c2 r2)) = false).
           { simpl. unfold is_dotted_I, is_kelvin.
             apply N.eqb_neq in N2. rewrite N2.
             destruct r2; reflexivity. }
           rewrite (lower_step _ _ Hs).
           assert (Hf : Spec.find_entry Spec.case_table
                          (String (ascii_of_N 226) (String c2 r2)) = None).
           { clear - N2. destruct c2 as [b0 b1 b2 b3 b4 b5 b6 b7].
             destruct b0, b1, b2, b3, b4, b5, b6, b7;
               first [reflexivity | exfalso; apply N2; reflexivity]. }
           rewrite lowercase_from_O, Hf. f_equal.
           apply IH. lia.
      * assert (Hs : special_head (String c1 r1) = false).
        { destruct (special_head (String c1 r1)) eqn:E; [|reflexivity].
          apply special_head_codes in E. tauto. }
        rewrite (lower_step _ _ Hs).
        rewrite lowercase_from_O, (@find_entry_plain c1 r1 N1 N1').
        destruct (is_upper c1) eqn:Eu.
        -- simpl. f_equal. apply IH. lia.
        -- rewrite (lower_char_fixed _ Eu). f_equal. apply IH. lia.
Qed.

Lemma lowercase_lower (s : string) : Spec.lowercase s = lower s.
Proof. apply (lowercase_lower_bounded (n := String.length s)). lia. Qed.

(** *** (2) delete *)

Lemma kept_class (c : ascii) : Spec.kept c = negb (not_az_space c).
Proof.
  destruct c as [b0 b1 b2 b3 b4 b5 b6 b7].
  destruct b0, b1, b2, b3, b4, b5, b6, b7; reflexivity.
Qed.

Lemma delete_outside_regexp (s : string) :
  Spec.delete_outside s = regexp_replace not_az_space s.
Proof.
  unfold Spec.delete_outside.
  induction s as [|c r IH]; [reflexivity|].
  simpl. rewrite kept_class.
  destruct (not_az_space c); simpl; rewrite IH; reflexivity.
Qed.

(** *** (3) trim *)

Lemma drop_while_strip_left (p : ascii -> bool) (s : string) :
  Spec.drop_while p (list_ascii_of_string s)
  = list_ascii_of_string (strip_left p s).
Proof.
  induction s as [|c r IH]; [reflexivity|].
  simpl. destruct (p c); [exact IH | reflexivity].
Qed.

Lemma drop_while_app (p : ascii -> bool) (l1 l2 : list ascii) :
  Spec.drop_while p (l1 ++ l2)
  = match Spec.drop_while p l1 with
    | [] => Spec.drop_while p l2
    | d => d ++ l2
    end.
Proof.
  induction l1 as [|c r IH]; [reflexivity|].
  simpl. destruct (p c); [exact IH | reflexivity].
Qed.

Lemma rev_drop_while_rev (p : ascii -> bool) (s : string) :
  rev (Spec.drop_while p (rev (list_ascii_of_string s)))
  = list_ascii_of_string (strip_right p s).
Proof.
  induction s as [|c r IH]; [reflexivity|].
  cbn [list_ascii_of_string rev strip_right].
  rewrite drop_while_app.
  destruct (Spec.drop_while p (rev (list_ascii_of_string r))) as [|d ds] eqn:E.
  - simpl in IH.
    destruct (strip_right p r); [|discriminate IH].
    simpl. destruct (p c); reflexivity.
  - rewrite rev_app_distr. change (rev [c]) with [c]. cbn [app]. rewrite IH.
    destruct (strip_right p r) as [|x xs] eqn:Es; [|reflexivity].
    exfalso. apply (f_equal (@List.length ascii)) in IH.
    rewrite length_rev in IH. simpl in IH. lia.
Qed.

Lemma trim_of_strip (p : ascii -> bool) (s : string) :
  Spec.trim_of p s = strip p s.
Proof.
  unfold Spec.trim_of, strip.
  rewrite drop_while_strip_left, rev_drop_while_rev.
  apply string_of_list_ascii_of_string.
Qed.

Lemma strip_ext (p q : ascii -> bool) (s : string) :
  (forall c, p c = q c) -> strip p s = strip q s.
Proof.
  intros H. unfold strip.
  assert (Hl : forall t, strip_left p t = strip_left q t).
  { induction t as [|c r IH]; simpl; [reflexivity|].
    rewrite H, IH. reflexivity. }
  assert (Hr : forall t, strip_right p t = strip_right q t).
  { induction t as [|c r IH]; simpl; [reflexivity|].
    rewrite H, IH. reflexivity. }
  rewrite Hl, Hr. reflexivity.
Qed.

Lemma is_sp_blank (c : ascii) : (c =? " ")%char = is_blank c.
Proof.
  destruct c as [b0 b1 b2 b3 b4 b5 b6 b7].
  destruct b0, b1, b2, b3, b4, b5, b6, b7; reflexivity.
Qed.

Lemma is_white_space (c : ascii) : Spec.is_white c = is_space c.
Proof.
  destruct c as [b0 b1 b2 b3 b4 b5 b6 b7].
  destruct b0, b1, b2, b3, b4, b5, b6, b7; reflexivity.
Qed.

Lemma trim_spaces_trim (s : string) : Spec.trim_spaces s = trim s.
Proof.
  unfold Spec.trim_spaces, trim. rewrite trim_of_strip.
  apply strip_ext, is_sp_blank.
Qed.

Lemma trim_white_strip (s : string) : Spec.trim_white s = strip is_space s.
Proof.
  unfold Spec.trim_white. rewrite trim_of_strip.
  apply strip_ext, is_white_space.
Qed.

(** *** (4) split *)

Lemma split_on_runs_not_nil (s : string) : Spec.split_on_runs s <> [].
Proof.
  induction s as [|c r IH]; simpl; [discriminate|].
  destruct (Spec.is_white c).
  - destruct r as [|c' r']; [discriminate|].
    destruct (Spec.is_white c'); [exact IH | discriminate].
  - destruct (Spec.split_on_runs r); discriminate.
Qed.

Lemma split_on_runs_white (c c' : ascii) (r' : string) :
  Spec.is_white c = true ->
  Spec.split_on_runs (String c (String c' r'))
  = if Spec.is_white c' then Spec.split_on_runs (String c' r')
    else EmptyString :: Spec.split_on_runs (String c' r').
Proof.
  intros H. change (Spec.split_on_runs (String c (String c' r')))
    with (if Spec.is_white c
          then if Spec.is_white c' then Spec.split_on_runs (String c' r')
               else EmptyString :: Spec.split_on_runs (String c' r')
          else match Spec.split_on_runs (String c' r') with
               | piece :: pieces => String c piece :: pieces
               | [] => [String c EmptyString]
               end).
  rewrite H. reflexivity.
Qed.

Lemma split_on_runs_head (c : ascii) (r : string) :
  Spec.is_white c = true ->
  exists pieces, Spec.split_on_runs (String c r) = EmptyString :: pieces.
Proof.
  revert c. induction r as [|c' r' IH]; intros c Hc.
  - simpl. rewrite Hc. eauto.
  - rewrite (@split_on_runs_white c c' r' Hc).
    destruct (Spec.is_white c') eqn:Hc'; [|eauto].
    apply IH, Hc'.
Qed.

(** Reading from the left with a piece in hand, or just behind a white
    space, agrees with reading from the end. *)
Lemma split_go_runs (s : string) :
  (forall cur,
      split_go is_space cur false s
      = match Spec.split_on_runs s with
        | piece :: pieces => (cur ++ piece)%string :: pieces
        | [] => []
        end)
  /\ split_go is_space EmptyString true s
     = match s with
       | String c _ => if is_space c then tl (Spec.split_on_runs s)
                       else Spec.split_on_runs s
       | EmptyString => Spec.split_on_runs s
       end.
Proof.
  induction s as [|c r [IH1 IH2]].
  - split; [|reflexivity]. intros cur. simpl. rewrite append_nil_r. reflexivity.
  - assert (Hstep : is_space c = true ->
                    Spec.split_on_runs (String c r)
                    = EmptyString :: split_go is_space EmptyString true r).
    { intros Ec. rewrite IH2. cbn [Spec.split_on_runs].
      rewrite is_white_space, Ec.
      destruct r as [|c' r']; [reflexivity|].
      rewrite is_white_space.
      destruct (is_space c') eqn:Ec'; [|reflexivity].
      destruct (@split_on_runs_head c' r') as [pieces E];
        [rewrite is_white_space; exact Ec'|].
      rewrite E. reflexivity. }
    split.
    + intros cur. destruct (is_space c) eqn:Ec.
      * rewrite (Hstep eq_refl). cbn [split_go]. rewrite Ec, append_nil_r.
        reflexivity.
      * cbn [split_go Spec.split_on_runs]. rewrite is_white_space, Ec, IH1.
        pose proof (split_on_runs_not_nil r) as Hne.
        destruct (Spec.split_on_runs r) as [|x xs]; [contradiction|].
        rewrite append_assoc. reflexivity.
    + destruct (is_space c) eqn:Ec.
      * rewrite (Hstep eq_refl). cbn [split_go tl]. rewrite Ec. reflexivity.
      * cbn [split_go Spec.split_on_runs]. rewrite is_white_space, Ec, IH1.
        pose proof (split_on_runs_not_nil r) as Hne.
        destruct (Spec.split_on_runs r) as [|x xs]; [contradiction|].
        reflexivity.
Qed.

Lemma split_on_runs_split (s : string) : Spec.split_on_runs s = split is_space s.
Proof.
  unfold split. rewrite (proj1 (split_go_runs s)).
  pose proof (split_on_runs_not_nil s) as Hne.
  destruct (Spec.split_on_runs s); [contradiction | reflexivity].
Qed.

Lemma discard_empty_filter (pieces : list string) :
  Spec.discard_empty pieces = filter nonblank pieces.
Proof.
  unfold Spec.discard_empty. apply filter_ext. intros [|c r]; reflexivity.
Qed.

(** The row of a line is what the four steps give, with the trim of
    spaces. *)
Lemma line_tokens_row (line : string) :
  Spec.line_tokens line
  = split is_space (trim (regexp_replace not_az_space (lower line))).
Proof.
  unfold Spec.line_tokens.
  rewrite split_on_runs_split, trim_spaces_trim, delete_outside_regexp,
    lowercase_lower.
  reflexivity.
Qed.

(** With the trim of all white space the pieces that are not empty are the
    same. *)
Lemma claimed_line_tokens_words (line : string) :
  Spec.discard_empty (Spec.claimed_line_tokens line) = Spec.tokens line.
Proof.
  unfold Spec.claimed_line_tokens, Spec.tokens, Spec.trim_whitespace.
  rewrite discard_empty_filter, split_on_runs_split, trim_white_strip,
    delete_outside_regexp, lowercase_lower.
  unfold split. apply filter_split_go. discriminate.
Qed.

End Steps.

(** C4 (as it holds).  Tokenization applies these steps in this order:
    (1) lowercase, (2) delete every character outside [a-z\s], (3) trim
    the space characters (code 32) at both ends, and no other white space,
    (4) split on runs of white space.  The row of a line in the line-token
    view is exactly what these four steps give, a leading or trailing
    empty string included where the trimmed text still starts or ends
    with white space.  The flat-token view discards the empty strings, and
    so holds the words that the steps give with the trim of all white
    space as well.  The line "Hello, World! 123" gives the tokens "hello"
    and "world". *)
Theorem tokenization_steps :
  (forall corpus : list string,
      tokenized_df corpus = map Spec.line_tokens corpus)
  /\ (forall corpus : list string,
        words_df corpus
        = flat_map (fun line => Spec.discard_empty (Spec.line_tokens line)) corpus)
  /\ (forall corpus : list string,
        words_df corpus
        = flat_map (fun line => Spec.discard_empty (Spec.claimed_line_tokens line))
                   corpus)
  /\ (forall corpus : list string, words_df corpus = flat_map Spec.tokens corpus)
  /\ tokenized_df ["Hello, World! 123"] = [["hello"; "world"]]
  /\ words_df ["Hello, World! 123"] = ["hello"; "world"].
Proof.
  assert (Hflat : forall corpus, words_df corpus = flat_map Spec.tokens corpus).
  { induction corpus as [|line corpus IH]; [reflexivity|].
    rewrite words_df_cons, IH. reflexivity. }
  split; [|split; [|split; [|split; [exact Hflat | split; reflexivity]]]].
  - intros corpus. unfold tokenized_df, cleanedDF, textDF. rewrite map_map.
    apply map_ext. intros line. symmetry. apply line_tokens_row.
  - intros corpus. rewrite Hflat.
    induction corpus as [|line corpus IH]; [reflexivity|].
    simpl. rewrite IH, discard_empty_filter, line_tokens_row, row_tokens.
    reflexivity.
  - intros corpus. rewrite Hflat.
    induction corpus as [|line corpus IH]; [reflexivity|].
    simpl. rewrite IH, claimed_line_tokens_words. reflexivity.
Qed.

(** C4, the counterexample: on the line made of a tab and "cat dog" the
    trim leaves the tab, so that the row of the line starts with an empty
    string; with the trim of all white space, as the claim words step (3),
    the four steps give "cat" and "dog" only. *)
Lemma tab_line_not_trimmed :
  tokenized_df [String (ascii_of_N 9) "cat dog"] = [[""; "cat"; "dog"]]
  /\ Spec.claimed_line_tokens (String (ascii_of_N 9) "cat dog") = ["cat"; "dog"]
  /\ tokenized_df [String (ascii_of_N 9) "cat dog"]
     <> [Spec.claimed_line_tokens (String (ascii_of_N 9) "cat dog")].
Proof.
  split; [reflexivity|]. split; [reflexivity|]. discriminate.
Qed.

(** ** Sorted lists *)

Section SortedLists.

Context {A : Type}.

(** Two sorted arrangements of the same elements are the same list, as
    soon as the order is antisymmetric on these elements. *)
Lemma StronglySorted_perm_unique (R : A -> A -> Prop) (l1 l2 : list A) :
  (forall x y, In x l1 -> In y l1 -> R x y -> R y x -> x = y) ->
  Permutation l1 l2 ->
  StronglySorted R l1 -> StronglySorted R l2 ->
  l1 = l2.
Proof.
  revert l2.
  induction l1 as [|a l1 IH]; intros l2 Hanti HP S1 S2.
  - apply Permutation_nil in HP. congruence.
  - destruct l2 as [|b l2].
    + apply Permutation_sym, Permutation_nil in HP. discriminate.
    + assert (Hab : a = b).
      { apply StronglySorted_inv in S1 as [_ F1].
        apply StronglySorted_inv in S2 as [_ F2].
        rewrite Forall_forall in F1, F2.
        assert (Ia : In a (b :: l2)) by (eapply Permutation_in; [exact HP | left; reflexivity]).
        assert (Ib : In b (a :: l1))
          by (eapply Permutation_in; [apply Permutation_sym; exact HP | left; reflexivity]).
        destruct Ia as [E | Ia]; [congruence|].
        destruct Ib as [E | Ib]; [congruence|].
        apply Hanti; [left; reflexivity | right; exact Ib | auto | auto]. }
      subst b. f_equal.
      apply IH.
      * intros x y Hx Hy. apply Hanti; right; assumption.
      * eapply Permutation_cons_inv. exact HP.
      * apply StronglySorted_inv in S1. tauto.
      * apply StronglySorted_inv in S2. tauto.
Qed.

Variable leb : A -> A -> bool.
Hypothesis leb_total : forall x y, leb x y = true \/ leb y x = true.
Hypothesis leb_trans : forall x y z, leb x y = true -> leb y z = true -> leb x z = true.
Hypothesis leb_antisym : forall x y, leb x y = true -> leb y x = true -> x = y.

Lemma insert_perm (x : A) (l : list A) : Permutation (x :: l) (insert leb x l).
Proof.
  induction l as [|y r IH]; simpl; [apply Permutation_refl|].
  destruct (leb x y); [apply Permutation_refl|].
  eapply perm_trans; [apply perm_swap|]. apply perm_skip, IH.
Qed.

Lemma sorted_perm (l : list A) : Permutation l (sorted leb l).
Proof.
  induction l as [|x r IH]; simpl; [constructor|].
  eapply perm_trans; [apply perm_skip, IH | apply insert_perm].
Qed.

Lemma insert_sorted (x : A) (l : list A) :
  StronglySorted (fun a b => leb a b = true) l ->
  StronglySorted (fun a b => leb a b = true) (insert leb x l).
Proof.
  induction l as [|y r IH]; simpl; intros S.
  - repeat constructor.
  - apply StronglySorted_inv in S as [Sr Fy].
    destruct (leb x y) eqn:E.
    + constructor; [constructor; assumption|].
      constructor; [exact E|].
      eapply Forall_impl; [|exact Fy].
      intros z Hz. cbv beta in *. eapply leb_trans; eauto.
    + constructor; [apply IH, Sr|].
      rewrite Forall_forall. intros z Hz.
      apply Permutation_in with (l' := x :: r) in Hz;
        [|apply Permutation_sym, insert_perm].
      destruct Hz as [<- | Hz].
      * destruct (leb_total x y) as [H | H]; [congruence | exact H].
      * rewrite Forall_forall in Fy. auto.
Qed.

Lemma sorted_sorted (l : list A) :
  StronglySorted (fun a b => leb a b = true) (sorted leb l).
Proof.
  induction l as [|x r IH]; simpl; [constructor|]. apply insert_sorted, IH.
Qed.

(** [sorted] depends on the elements only, not on their order. *)
Lemma sorted_of_perm (l1 l2 : list A) :
  Permutation l1 l2 -> sorted leb l1 = sorted leb l2.
Proof.
  intros HP.
  apply StronglySorted_perm_unique with (R := fun a b => leb a b = true).
  - intros x y _ _. apply leb_antisym.
  - eapply perm_trans; [apply Permutation_sym, sorted_perm|].
    eapply perm_trans; [exact HP | apply sorted_perm].
  - apply sorted_sorted.
  - apply sorted_sorted.
Qed.

Lemma sorted_in (x : A) (l : list A) : In x (sorted leb l) <-> In x l.
Proof.
  split; apply Permutation_in;
    [apply Permutation_sym|]; apply sorted_perm.
Qed.

Lemma sorted_NoDup (l : list A) : NoDup l -> NoDup (sorted leb l).
Proof. apply Permutation_NoDup, sorted_perm. Qed.

End SortedLists.

(** ** The order of Python on strings and on tuples *)

Section StringOrder.

Lemma ascii_compare_refl (c : ascii) : Ascii.compare c c = Eq.
Proof. apply N.compare_refl. Qed.

Lemma string_compare_refl (s : string) : String.compare s s = Eq.
Proof.
  induction s as [|c r IH]; simpl; [reflexivity|].
  rewrite ascii_compare_refl. exact IH.
Qed.

Lemma string_compare_lt_trans (a b c : string) :
  String.compare a b = Lt -> String.compare b c = Lt -> String.compare a c = Lt.
Proof.
  revert b c.
  induction a as [|x a IH]; intros [|y b] [|z c]; simpl;
    try discriminate; try reflexivity.
  destruct (Ascii.compare x y) eqn:E1; try discriminate;
    destruct (Ascii.compare y z) eqn:E2; try discriminate; intros H1 H2.
  - apply Ascii.compare_eq_iff in E1, E2. subst.
    rewrite ascii_compare_refl. eapply IH; eauto.
  - apply Ascii.compare_eq_iff in E1. subst. rewrite E2. reflexivity.
  - apply Ascii.compare_eq_iff in E2. subst. rewrite E1. reflexivity.
  - unfold Ascii.compare in *.
    rewrite (N.lt_trans _ _ _ E1 E2). reflexivity.
Qed.

Lemma string_leb_iff (a b : string) :
  String.leb a b = true <-> String.compare a b = Lt \/ a = b.
Proof.
  unfold String.leb. split.
  - destruct (String.compare a b) eqn:E; intros H; try discriminate.
    + right. apply String.compare_eq_iff, E.
    + left. reflexivity.
  - intros [-> | ->]; [reflexivity|].
    rewrite string_compare_refl. reflexivity.
Qed.

Lemma string_leb_trans (a b c : string) :
  String.leb a b = true -> String.leb b c = true -> String.leb a c = true.
Proof.
  rewrite !string_leb_iff.
  intros [H1 | ->] [H2 | ->]; auto.
  left. eapply string_compare_lt_trans; eauto.
Qed.

Lemma string_compare_lt_irrefl (a : string) : String.compare a a <> Lt.
Proof. rewrite string_compare_refl. discriminate. Qed.

Lemma string_compare_lt_asym (a b : string) :
  String.compare a b = Lt -> String.compare b a = Lt -> False.
Proof.
  intros H1 H2. rewrite String.compare_antisym, H2 in H1. discriminate.
Qed.

Lemma tuple_leb_iff (x y : string * Z) :
  tuple_leb x y = true <->
  String.compare (fst x) (fst y) = Lt \/ (fst x = fst y /\ snd x <= snd y).
Proof.
  unfold tuple_leb. split.
  - destruct (String.compare (fst x) (fst y)) eqn:E; intros H; try discriminate.
    + right. split; [apply String.compare_eq_iff, E | apply Z.leb_le, H].
    + left. reflexivity.
  - intros [-> | [E H]]; [reflexivity|].
    rewrite E, string_compare_refl. apply Z.leb_le, H.
Qed.

Lemma tuple_leb_total (x y : string * Z) :
  tuple_leb x y = true \/ tuple_leb y x = true.
Proof.
  rewrite !tuple_leb_iff.
  destruct (String.compare (fst x) (fst y)) eqn:E.
  - apply String.compare_eq_iff in E.
    destruct (Z.le_ge_cases (snd x) (snd y)); [left | right]; right; auto.
  - left. left. reflexivity.
  - right. left. rewrite String.compare_antisym, E. reflexivity.
Qed.

Lemma tuple_leb_trans (x y z : string * Z) :
  tuple_leb x y = true -> tuple_leb y z = true -> tuple_leb x z = true.
Proof.
  rewrite !tuple_leb_iff.
  intros [H1 | [E1 H1]] [H2 | [E2 H2]].
  - left. eapply string_compare_lt_trans; eauto.
  - left. rewrite <- E2. exact H1.
  - left. rewrite E1. exact H2.
  - right. split; [congruence | lia].
Qed.

Lemma tuple_leb_antisym (x y : string * Z) :
  tuple_leb x y = true -> tuple_leb y x = true -> x = y.
Proof.
  rewrite !tuple_leb_iff.
  destruct x as [a m], y as [b n]; simpl.
  intros [H1 | [E1 H1]] [H2 | [E2 H2]].
  - destruct (string_compare_lt_asym _ _ H1 H2).
  - subst. destruct (string_compare_lt_irrefl _ H1).
  - subst. destruct (string_compare_lt_irrefl _ H2).
  - f_equal; [assumption | lia].
Qed.

End StringOrder.

(** ** The pairing function *)

Section Pairing.

Lemma StronglySorted_app {A : Type} (R : A -> A -> Prop) (l1 l2 : list A) :
  StronglySorted R l1 -> StronglySorted R l2 ->
  (forall x y, In x l1 -> In y l2 -> R x y) ->
  StronglySorted R (l1 ++ l2).
Proof.
  induction l1 as [|a l1 IH]; simpl; intros S1 S2 H; [exact S2|].
  apply StronglySorted_inv in S1 as [S1 F1].
  constructor.
  - apply IH; auto.
  - apply Forall_app. split; [exact F1|].
    rewrite Forall_forall. intros y Hy. apply H; auto.
Qed.

Lemma StronglySorted_map {A B : Type} (R : A -> A -> Prop) (Q : B -> B -> Prop)
      (f : A -> B) (l : list A) :
  (forall x y, R x y -> Q (f x) (f y)) ->
  StronglySorted R l -> StronglySorted Q (map f l).
Proof.
  intros HRQ. induction 1 as [|a l S IH F]; simpl; constructor; [exact IH|].
  rewrite Forall_forall in *. intros y Hy.
  apply in_map_iff in Hy as [x [<- Hx]]. auto.
Qed.

Lemma in_combinations (a b : string) (l : list string) :
  In (a, b) (combinations_with_replacement l) -> In a l /\ In b l.
Proof.
  induction l as [|x r IH]; simpl; [tauto|].
  intros [E | H].
  - inversion E; subst. auto.
  - apply in_app_or in H as [H | H].
    + apply in_map_iff in H as [y [E Hy]]. inversion E; subst. auto.
    + apply IH in H. tauto.
Qed.

(** Over a sorted pool the combinations are the pairs in order. *)
Lemma in_combinations_sorted (a b : string) (l : list string) :
  StronglySorted string_le l ->
  (In (a, b) (combinations_with_replacement l)
   <-> In a l /\ In b l /\ string_le a b).
Proof.
  induction l as [|x r IH]; intros S; [simpl; tauto|].
  apply StronglySorted_inv in S as [Sr Fx].
  rewrite Forall_forall in Fx.
  specialize (IH Sr).
  assert (Hrefl : string_le x x)
    by (apply string_leb_iff; right; reflexivity).
  change (combinations_with_replacement (x :: r))
    with (map (pair x) (x :: r) ++ combinations_with_replacement r).
  rewrite in_app_iff, in_map_iff, IH.
  split.
  - intros [[y [E Hy]] | [Ha [Hb Hab]]].
    + inversion E; subst.
      split; [left; reflexivity|]. split; [exact Hy|].
      destruct Hy as [<- | Hy]; auto.
    + simpl. tauto.
  - intros [Ha [Hb Hab]].
    destruct Ha as [<- | Ha].
    + left. exists b. auto.
    + destruct Hb as [<- | Hb].
      * assert (a = x) by (apply String.leb_antisym; [exact Hab | apply Fx, Ha]).
        subst a. left. exists x. split; [reflexivity | left; reflexivity].
      * right. auto.
Qed.

Lemma combinations_NoDup (l : list string) :
  NoDup l -> NoDup (combinations_with_replacement l).
Proof.
  induction l as [|x r IH]; intros ND; [constructor|].
  change (combinations_with_replacement (x :: r))
    with (map (pair x) (x :: r) ++ combinations_with_replacement r).
  pose proof ND as ND'.
  apply NoDup_cons_iff in ND' as [Hx NDr].
  apply NoDup_app.
  - clear - ND. induction ND as [|y l Hy ND IH]; simpl; constructor; [|exact IH].
    intros H. apply in_map_iff in H as [z [E Hz]]. inversion E; subst.
    contradiction.
  - apply IH, NDr.
  - intros [a b] H1 H2.
    apply in_map_iff in H1 as [y [E _]]. inversion E; subst.
    apply in_combinations in H2. tauto.
Qed.

Lemma strictly_sorted (l : list string) :
  StronglySorted string_le l -> NoDup l -> StronglySorted string_lt l.
Proof.
  induction 1 as [|a l S IH F]; intros ND; constructor.
  - apply IH. apply NoDup_cons_iff in ND. tauto.
  - apply NoDup_cons_iff in ND as [Ha _].
    rewrite Forall_forall in *. intros y Hy.
    destruct (proj1 (string_leb_iff a y) (F y Hy)) as [H | ->];
      [exact H | contradiction].
Qed.

Lemma combinations_sorted (l : list string) :
  StronglySorted string_lt l ->
  StronglySorted pair_lt (combinations_with_replacement l).
Proof.
  induction l as [|x r IH]; intros S; [constructor|].
  change (combinations_with_replacement (x :: r))
    with (map (pair x) (x :: r) ++ combinations_with_replacement r).
  pose proof S as S'.
  apply StronglySorted_inv in S' as [Sr Fx].
  rewrite Forall_forall in Fx.
  apply StronglySorted_app.
  - apply StronglySorted_map with (R := string_lt); [|exact S].
    intros y z H. right. simpl. auto.
  - apply IH, Sr.
  - intros [a b] [c d] H1 H2.
    apply in_map_iff in H1 as [y [E _]]. inversion E; subst.
    apply in_combinations in H2 as [Hc _].
    left. simpl. apply Fx, Hc.
Qed.

Lemma StronglySorted_lt_NoDup (l : list (string * string)) :
  StronglySorted pair_lt l -> NoDup l.
Proof.
  induction 1 as [|p l S IH F]; constructor; [|exact IH].
  intros Hp. rewrite Forall_forall in F. specialize (F p Hp).
  destruct F as [H | [_ H]]; exact (string_compare_lt_irrefl _ H).
Qed.

(** The sorted distinct words of a list. *)
Lemma sorted_set_in (w : string) (words : list string) :
  In w (sorted String.leb (set_ words)) <-> In w words.
Proof. unfold set_. rewrite sorted_in. apply nodup_In. Qed.

Lemma sorted_set_sorted (words : list string) :
  StronglySorted string_le (sorted String.leb (set_ words)).
Proof.
  apply sorted_sorted; [apply String.leb_total | apply string_leb_trans].
Qed.

Lemma sorted_set_strict (words : list string) :
  StronglySorted string_lt (sorted String.leb (set_ words)).
Proof.
  apply strictly_sorted; [apply sorted_set_sorted|].
  apply sorted_NoDup, NoDup_nodup.
Qed.

Lemma sorted_set_ext (l1 l2 : list string) :
  (forall w, In w l1 <-> In w l2) ->
  sorted String.leb (set_ l1) = sorted String.leb (set_ l2).
Proof.
  intros H.
  apply sorted_of_perm;
    [apply String.leb_total | apply string_leb_trans | apply String.leb_antisym |].
  apply NoDup_Permutation; try apply NoDup_nodup.
  intros w. unfold set_. rewrite !nodup_In. apply H.
Qed.

Lemma word_pairs_in (a b : string) (words : list string) :
  In (a, b) (word_pairs words) <-> In a words /\ In b words /\ string_le a b.
Proof.
  unfold word_pairs.
  rewrite in_combinations_sorted by apply sorted_set_sorted.
  rewrite !sorted_set_in. tauto.
Qed.

Lemma word_pairs_sorted (words : list string) :
  StronglySorted pair_lt (word_pairs words).
Proof. apply combinations_sorted, sorted_set_strict. Qed.

(** A key is cut at its first bar: the key determines the pair as soon
    as the first words have no bar. *)
Lemma pair_key_inj (a b c d : string) :
  bar_free a -> bar_free c ->
  pair_key (a, b) = pair_key (c, d) -> a = c /\ b = d.
Proof.
  unfold pair_key, bar_free. simpl. revert c.
  induction a as [|x a IH]; intros [|y c]; simpl; intros Ha Hc E.
  - inversion E. auto.
  - inversion E; subst. discriminate Hc.
  - inversion E; subst. discriminate Ha.
  - inversion E; subst.
    apply andb_true_iff in Ha as [_ Ha]. apply andb_true_iff in Hc as [_ Hc].
    destruct (IH c Ha Hc H1) as [-> ->]. auto.
Qed.

Lemma generate_pairs_in_key (a b : string) (words : list string) :
  Forall bar_free words -> bar_free a ->
  In (pair_key (a, b)) (generate_pairs words) -> In (a, b) (word_pairs words).
Proof.
  intros Hw Ha H. unfold generate_pairs in H.
  apply in_map_iff in H as [[c d] [E Hcd]].
  assert (Hc : bar_free c).
  { rewrite Forall_forall in Hw. apply Hw.
    apply word_pairs_in in Hcd. tauto. }
  apply pair_key_inj in E as [-> ->]; assumption.
Qed.

Lemma generate_pairs_NoDup (words : list string) :
  Forall bar_free words -> NoDup (generate_pairs words).
Proof.
  intros Hw. unfold generate_pairs.
  assert (ND : NoDup (word_pairs words))
    by apply StronglySorted_lt_NoDup, word_pairs_sorted.
  assert (Hbar : forall p, In p (word_pairs words) -> bar_free (fst p)).
  { intros [a b] Hp. rewrite Forall_forall in Hw. apply Hw.
    apply word_pairs_in in Hp. tauto. }
  induction (word_pairs words) as [|p l IH]; simpl; [constructor|].
  apply NoDup_cons_iff in ND as [Hp ND].
  constructor.
  - intros H. apply in_map_iff in H as [q [E Hq]].
    destruct p as [a b], q as [c d].
    apply pair_key_inj in E as [-> ->];
      [contradiction | apply (Hbar (c, d)); right; exact Hq
       | apply (Hbar (a, b)); left; reflexivity].
  - apply IH; [exact ND|]. intros q Hq. apply Hbar. right. exact Hq.
Qed.

End Pairing.

(** Every word of the line-token view is made of the letters a to z. *)
Lemma tokenized_df_az (corpus : list string) (row : list string) :
  In row (tokenized_df corpus) -> Forall az_word row.
Proof.
  unfold tokenized_df, cleanedDF, textDF. rewrite map_map.
  intros H. apply in_map_iff in H as [line [<- _]].
  apply split_go_az; [|reflexivity].
  apply all_chars_trim, cleaned_chars.
Qed.

Lemma az_word_bar_free (w : string) : az_word w -> bar_free w.
Proof. apply all_chars_impl. intros c H. rewrite is_az_not_bar; auto. Qed.

Lemma tokenized_df_bar_free (corpus : list string) (row : list string) :
  In row (tokenized_df corpus) -> Forall bar_free row.
Proof.
  intros H. eapply Forall_impl; [|eapply tokenized_df_az; exact H].
  apply az_word_bar_free.
Qed.

(** C3.  For every list of words, [generate_pairs] emits exactly the
    combinations with replacement of the sorted distinct words of the list:
    the pairs (a, b) of words of the list with a <= b, each once, encoded
    as "a|b".  For words without a bar, as all the words of the line-token
    view are, no key is emitted twice, the key "a|b" of two words of the
    list is emitted exactly when a <= b, and so the reversed form "b|a" of
    an emitted pair of different words never is.  The words a, b, a give
    exactly "a|a", "a|b", "b|b". *)
Theorem generate_pairs_exact :
  (forall words : list string,
      let pool := sorted String.leb (set_ words) in
      StronglySorted string_lt pool
      /\ (forall w, In w pool <-> In w words)
      /\ generate_pairs words = map pair_key (combinations_with_replacement pool)
      /\ (forall a b, In (a, b) (combinations_with_replacement pool)
                      <-> In a words /\ In b words /\ string_le a b)
      /\ NoDup (combinations_with_replacement pool)
      /\ (Forall bar_free words ->
          NoDup (generate_pairs words)
          /\ (forall a b, In a words -> In b words ->
                (In (a ++ "|" ++ b)%string (generate_pairs words) <-> string_le a b))
          /\ (forall a b, In (a ++ "|" ++ b)%string (generate_pairs words) ->
                In a words -> In b words -> a <> b ->
                ~ In (b ++ "|" ++ a)%string (generate_pairs words))))
  /\ generate_pairs ["a"; "b"; "a"] = ["a|a"; "a|b"; "b|b"].
Proof.
  split; [|reflexivity].
  intros words pool.
  split; [apply sorted_set_strict|].
  split; [intros w; apply sorted_set_in|].
  split; [reflexivity|].
  split; [intros a b; apply (word_pairs_in a b words)|].
  split; [apply StronglySorted_lt_NoDup, (word_pairs_sorted words)|].
  intros Hw.
  assert (Hkey : forall a b, In a words -> In b words ->
            (In (a ++ "|" ++ b)%string (generate_pairs words) <-> string_le a b)).
  { intros a b Ha Hb. split.
    - intros H.
      apply (@generate_pairs_in_key a b words Hw) in H.
      + apply word_pairs_in in H. tauto.
      + rewrite Forall_forall in Hw. auto.
    - intros Hab. unfold generate_pairs.
      apply in_map_iff. exists (a, b). split; [reflexivity|].
      apply word_pairs_in. auto. }
  split; [apply generate_pairs_NoDup, Hw|].
  split; [exact Hkey|].
  intros a b Hab Ha Hb Hne Hba.
  apply Hkey in Hab; [|assumption..].
  apply Hkey in Hba; [|assumption..].
  apply Hne, String.leb_antisym; assumption.
Qed.

Lemma generate_pairs_exact_witness :
  Forall bar_free ["a"; "b"; "a"]
  /\ NoDup (generate_pairs ["a"; "b"; "a"])
  /\ ~ In "b|a" (generate_pairs ["a"; "b"; "a"]).
Proof.
  assert (Hw : Forall bar_free ["a"; "b"; "a"])
    by (repeat constructor).
  split; [exact Hw|].
  destruct generate_pairs_exact as [H _].
  destruct (H ["a"; "b"; "a"]) as [_ [_ [_ [_ [_ Hbar]]]]].
  destruct (Hbar Hw) as [ND [_ Hrev]].
  split; [exact ND|].
  apply (Hrev "a" "b").
  - simpl. auto.
  - simpl. auto.
  - simpl. auto.
  - discriminate.
Defined.

(** C10 (as it holds).  [generate_pairs] depends only on the set of its
    input words: two lists with the same elements give the same list.  Its
    entries, read as the pairs (a, b) that they encode, are strictly
    increasing in the lexicographic order of pairs, hence without
    repetition; for words without a bar no key is repeated either. *)
Theorem generate_pairs_set_only :
  (forall l1 l2 : list string,
      (forall w, In w l1 <-> In w l2) -> generate_pairs l1 = generate_pairs l2)
  /\ (forall words : list string,
         generate_pairs words = map pair_key (word_pairs words)
         /\ StronglySorted pair_lt (word_pairs words)
         /\ NoDup (word_pairs words)
         /\ (Forall bar_free words -> NoDup (generate_pairs words))).
Proof.
  split.
  - intros l1 l2 H. unfold generate_pairs, word_pairs.
    rewrite (sorted_set_ext l1 l2 H). reflexivity.
  - intros words.
    split; [reflexivity|].
    split; [apply word_pairs_sorted|].
    split; [apply StronglySorted_lt_NoDup, word_pairs_sorted|].
    apply generate_pairs_NoDup.
Qed.

Lemma generate_pairs_set_only_witness :
  generate_pairs ["b"; "a"; "b"] = generate_pairs ["a"; "b"].
Proof.
  apply (proj1 generate_pairs_set_only).
  intros w. simpl. tauto.
Defined.

(** C10, the counterexample: for the words "a" and "ab" the keys come out
    as "a|a", "a|ab", "ab|ab", and this list of strings is not in
    lexicographic order, since the bar is greater than every letter:
    "ab|ab" is smaller than "a|a". *)
Lemma generate_pairs_not_sorted :
  generate_pairs ["a"; "ab"] = ["a|a"; "a|ab"; "ab|ab"]
  /\ sorted String.leb (generate_pairs ["a"; "ab"]) = ["ab|ab"; "a|a"; "a|ab"]
  /\ ~ StronglySorted string_le (generate_pairs ["a"; "ab"]).
Proof.
  split; [reflexivity|]. split; [reflexivity|].
  intros S.
  change (generate_pairs ["a"; "ab"]) with ["a|a"; "a|ab"; "ab|ab"] in S.
  apply StronglySorted_inv in S as [_ F].
  rewrite Forall_forall in F.
  assert (H : string_le "a|a" "ab|ab") by (apply F; simpl; auto).
  discriminate H.
Qed.

(** ** The two paths *)

Section Paths.

Lemma count_star_from {A : Type} (rows : list A) (k : Z) :
  fold_left (fun n _ => n + 1) rows k = k + Z.of_nat (length rows).
Proof.
  revert k. induction rows as [|r rows IH]; intros k.
  - simpl. lia.
  - cbn [fold_left length]. rewrite IH. lia.
Qed.

Lemma count_star_count {A : Type} (rows : list A) : count_star rows = count rows.
Proof. unfold count_star, count. rewrite count_star_from. lia. Qed.

(** Some order of the rows is always admissible. *)
Lemma ordered_desc_exists (table : list (string * Z)) :
  ordered_desc table (sorted count_geb table).
Proof.
  split.
  - apply sorted_perm.
  - rewrite <- (map_id (sorted count_geb table)).
    apply StronglySorted_map with (R := fun x y => count_geb x y = true).
    + intros x y H. apply Z.leb_le, H.
    + apply sorted_sorted.
      * intros x y. unfold count_geb. rewrite !Z.leb_le. lia.
      * intros x y z. unfold count_geb. rewrite !Z.leb_le. lia.
Qed.

(** All admissible orders show the same column of counts. *)
Lemma ordered_desc_counts (table o1 o2 : list (string * Z)) :
  ordered_desc table o1 -> ordered_desc table o2 -> map snd o1 = map snd o2.
Proof.
  intros [P1 S1] [P2 S2].
  apply StronglySorted_perm_unique with (R := fun m n : Z => n <= m).
  - intros; lia.
  - apply Permutation_map.
    eapply perm_trans; [apply Permutation_sym; exact P1 | exact P2].
  - eapply StronglySorted_map; [|exact S1]. auto.
  - eapply StronglySorted_map; [|exact S2]. auto.
Qed.

Lemma NoDup_map_inj {A B : Type} (f : A -> B) (l : list A) (x y : A) :
  NoDup (map f l) -> In x l -> In y l -> f x = f y -> x = y.
Proof.
  induction l as [|a l IH]; simpl; [tauto|].
  intros ND Hx Hy E. apply NoDup_cons_iff in ND as [Ha ND].
  destruct Hx as [-> | Hx], Hy as [-> | Hy]; auto.
  - exfalso. apply Ha. rewrite E. apply in_map, Hy.
  - exfalso. apply Ha. rewrite <- E. apply in_map, Hx.
Qed.

(** Without two equal counts there is one admissible order. *)
Lemma ordered_desc_unique (table o1 o2 : list (string * Z)) :
  NoDup (map snd table) ->
  ordered_desc table o1 -> ordered_desc table o2 -> o1 = o2.
Proof.
  intros ND [P1 S1] [P2 S2].
  apply StronglySorted_perm_unique with (R := by_count_desc); try assumption.
  - intros x y Hx Hy H1 H2. unfold by_count_desc in *.
    apply (@NoDup_map_inj _ _ snd o1); try assumption; [|lia].
    eapply Permutation_NoDup; [|exact ND]. apply Permutation_map, P1.
  - eapply perm_trans; [apply Permutation_sym; exact P1 | exact P2].
Qed.

(** A table that fits under the limit is returned whole. *)
Lemma limit_all {A : Type} (n : nat) (rows : list A) :
  (length rows <= n)%nat -> limit n rows = rows.
Proof. apply firstn_all2. Qed.

Lemma limit_counts (n : nat) (rows : list (string * Z)) :
  map snd (limit n rows) = limit n (map snd rows).
Proof. unfold limit. symmetry. apply firstn_map. Qed.

(** The SQL statements of the script resolve in its session. *)
Lemma sqlFrequency_table (corpus : list string) :
  sql_table (spark corpus) sqlFrequency_query
  = Some (Counted "word" "frequency" (group_count (words_df corpus))).
Proof. reflexivity. Qed.

Lemma spark_pairs_session (corpus : list string) :
  spark_pairs corpus
  = Some (createOrReplaceTempView "pair_table"
            (Strings "pair" (explode (map generate_pairs (tokenized_df corpus))))
            (spark corpus)).
Proof. reflexivity. Qed.

Lemma pySparkPair_rows (corpus : list string) :
  pySparkPair corpus = explode (map generate_pairs (tokenized_df corpus)).
Proof.
  unfold pySparkPair, withColumn_pairs. rewrite map_map. reflexivity.
Qed.

Lemma sqlRes_iff (corpus : list string) (res : list (string * Z)) :
  sqlRes corpus res <->
  exists out, ordered_desc (group_count (words_df corpus)) out /\ res = limit 20 out.
Proof.
  unfold sqlRes, sqlFrequency, sql. rewrite sqlFrequency_table. simpl.
  split.
  - intros [df [[_ [out [Hout ->]]] Hc]]. simpl in Hc.
    inversion Hc; subst. eauto.
  - intros [out [Hout ->]].
    exists (Counted "word" "frequency" (limit 20 out)).
    split; [split; [reflexivity|]; eauto | reflexivity].
Qed.

Lemma sqlPairFreq_iff (corpus : list string) (rows : list (string * Z)) :
  (exists df, sqlPairFreq corpus df /\ collect_counted "pair" "count" df = Some rows)
  <-> pysparkPairFreq corpus rows.
Proof.
  unfold sqlPairFreq, pysparkPairFreq. rewrite pySparkPair_rows.
  split.
  - intros [df [[s [Hs Hq]] Hc]].
    rewrite spark_pairs_session in Hs. inversion Hs; subst s. clear Hs.
    unfold sql in Hq. simpl in Hq.
    destruct Hq as [_ [out [Hout ->]]]. simpl in Hc.
    inversion Hc; subst. eauto.
  - intros [out [Hout ->]].
    exists (Counted "pair" "count" (limit 20 out)). split; [|reflexivity].
    eexists. split; [apply spark_pairs_session|].
    unfold sql. simpl. split; [reflexivity|]. eauto.
Qed.

End Paths.

(** C1.  For every corpus the SQL query SELECT COUNT( * ) over the view
    wordTable_temp resolves, returns one row, and its value is the integer
    that [words_df.count()] returns. *)
Theorem total_count_paths_agree (corpus : list string) :
  sqlCountVal corpus = Some (pySparkWordCount corpus).
Proof.
  unfold sqlCountVal, pySparkWordCount. simpl.
  rewrite count_star_count. reflexivity.
Qed.

(** ** Grouping *)

Section Grouping.

Lemma lookup_bump (k key : string) (table : list (string * Z)) :
  lookup k (bump key table)
  = if (key =? k)%string
    then Some (match lookup key table with Some n => n + 1 | None => 1 end)
    else lookup k table.
Proof.
  induction table as [|[k' n] table IH]; simpl.
  - reflexivity.
  - destruct (String.eqb_spec k' key) as [-> | Hk]; simpl.
    + destruct (String.eqb_spec key k) as [-> | Hn]; [reflexivity|].
      reflexivity.
    + rewrite IH.
      destruct (String.eqb_spec k' k) as [-> | Hn].
      * destruct (String.eqb_spec key k) as [-> | _]; [contradiction | reflexivity].
      * reflexivity.
Qed.

Lemma bump_keys (key : string) (table : list (string * Z)) :
  map fst (bump key table)
  = if existsb (String.eqb key) (map fst table)
    then map fst table else map fst table ++ [key].
Proof.
  induction table as [|[k n] table IH]; simpl; [reflexivity|].
  rewrite (String.eqb_sym key k).
  destruct (k =? key)%string; simpl; [reflexivity|].
  rewrite IH. destruct (existsb (String.eqb key) (map fst table)); reflexivity.
Qed.

Lemma bump_NoDup (key : string) (table : list (string * Z)) :
  NoDup (map fst table) -> NoDup (map fst (bump key table)).
Proof.
  intros ND. rewrite bump_keys.
  destruct (existsb (String.eqb key) (map fst table)) eqn:E; [exact ND|].
  apply NoDup_app; [exact ND | repeat constructor; simpl; tauto |].
  intros k Hk [<- | []].
  assert (H : existsb (String.eqb key) (map fst table) = true)
    by (apply existsb_exists; exists key; split; [exact Hk | apply String.eqb_refl]).
  congruence.
Qed.

Lemma fold_bump_lookup (rows : list string) (table : list (string * Z)) (k : string) :
  lookup k (fold_left (fun t key => bump key t) rows table)
  = match count_occ string_dec rows k, lookup k table with
    | O, found => found
    | S c, Some n => Some (n + Z.of_nat (S c))
    | S c, None => Some (Z.of_nat (S c))
    end.
Proof.
  revert table.
  induction rows as [|r rows IH]; intros table.
  - simpl. destruct (lookup k table); reflexivity.
  - cbn [fold_left count_occ]. rewrite IH, lookup_bump.
    destruct (string_dec r k) as [-> | Hr].
    + rewrite String.eqb_refl.
      destruct (count_occ string_dec rows k), (lookup k table); f_equal; lia.
    + apply String.eqb_neq in Hr. rewrite Hr. reflexivity.
Qed.

Lemma fold_bump_NoDup (rows : list string) (table : list (string * Z)) :
  NoDup (map fst table) ->
  NoDup (map fst (fold_left (fun t key => bump key t) rows table)).
Proof.
  revert table.
  induction rows as [|r rows IH]; intros table ND; [exact ND|].
  apply IH, bump_NoDup, ND.
Qed.

Lemma lookup_in (k : string) (n : Z) (table : list (string * Z)) :
  NoDup (map fst table) -> (In (k, n) table <-> lookup k table = Some n).
Proof.
  induction table as [|[k' n'] table IH]; simpl; intros ND.
  - split; [tauto | discriminate].
  - apply NoDup_cons_iff in ND as [Hk ND].
    destruct (String.eqb_spec k' k) as [-> | Hn].
    + split.
      * intros [E | H]; [inversion E; reflexivity|].
        exfalso. apply Hk. apply (in_map fst) in H. exact H.
      * intros E. inversion E. left. reflexivity.
    + rewrite <- (IH ND). split; [|tauto].
      intros [E | H]; [inversion E; contradiction | exact H].
Qed.

(** The table of a grouping has one row per distinct key, and the count of
    a key is the number of rows that hold it. *)
Lemma group_count_keys (rows : list string) : NoDup (map fst (group_count rows)).
Proof. apply fold_bump_NoDup. constructor. Qed.

Lemma group_count_in (rows : list string) (k : string) (n : Z) :
  In (k, n) (group_count rows)
  <-> In k rows /\ n = Z.of_nat (count_occ string_dec rows k).
Proof.
  rewrite lookup_in by apply group_count_keys.
  unfold group_count. rewrite fold_bump_lookup. simpl.
  rewrite (count_occ_In string_dec).
  destruct (count_occ string_dec rows k) as [|c]; split.
  - discriminate.
  - intros [H _]. inversion H.
  - intros E. inversion E. split; [apply Nat.lt_0_succ | reflexivity].
  - intros [_ ->]. reflexivity.
Qed.

End Grouping.

Section Ties.

(** Rows that all carry the same count are in order whatever their
    arrangement. *)
Lemma same_count_sorted (c : Z) (rows : list (string * Z)) :
  Forall (fun x => snd x = c) rows -> StronglySorted by_count_desc rows.
Proof.
  induction 1 as [|x l Hx F IH]; constructor; [exact IH|].
  eapply Forall_impl; [|exact F].
  intros y Hy. unfold by_count_desc. cbv beta in *. lia.
Qed.

Lemma same_count_ordered (c : Z) (table out : list (string * Z)) :
  Forall (fun x => snd x = c) table -> Permutation table out ->
  ordered_desc table out.
Proof.
  intros F P. split; [exact P|].
  apply same_count_sorted with (c := c).
  rewrite Forall_forall in *. intros x Hx. apply F.
  eapply Permutation_in; [apply Permutation_sym, P | exact Hx].
Qed.

Lemma limit_in {A : Type} (n : nat) (rows : list A) (x : A) :
  In x (limit n rows) -> In x rows.
Proof.
  unfold limit. revert rows.
  induction n as [|n IH]; intros [|r rows]; simpl; try tauto.
  intros [H | H]; auto.
Qed.

Lemma pysparkRes_iff (corpus : list string) (res : list (string * Z)) :
  pysparkRes corpus res <->
  exists out, ordered_desc (group_count (words_df corpus)) out /\ res = limit 20 out.
Proof. reflexivity. Qed.

Lemma sqlPairRes_iff (corpus : list string) (res : list (string * Z)) :
  sqlPairRes corpus res <-> pysparkPairRes corpus res.
Proof.
  unfold sqlPairRes, pysparkPairRes. split.
  - intros [df [rows [Hdf [Hc ->]]]].
    exists rows. split; [|reflexivity].
    apply sqlPairFreq_iff. eauto.
  - intros [rows [Hrows ->]].
    apply sqlPairFreq_iff in Hrows as [df [Hdf Hc]].
    exists df, rows. auto.
Qed.

(** When the table of pair counts fits under the limit, the sorted
    result is the sorted table. *)
Lemma pysparkPairRes_whole (corpus : list string) (res : list (string * Z)) :
  (length (group_count (pySparkPair corpus)) <= 20)%nat ->
  pysparkPairRes corpus res ->
  res = sorted tuple_leb (group_count (pySparkPair corpus)).
Proof.
  intros Hlen [rows [[out [[P S] ->]] ->]].
  rewrite limit_all by (rewrite <- (Permutation_length P); exact Hlen).
  apply sorted_of_perm;
    [apply tuple_leb_total | apply tuple_leb_trans | apply tuple_leb_antisym |].
  apply Permutation_sym, P.
Qed.

End Ties.

(** ** The cut of the limit *)

Section Cut.

Lemma StronglySorted_app_inv {A : Type} (R : A -> A -> Prop) (l1 l2 : list A) :
  StronglySorted R (l1 ++ l2) ->
  StronglySorted R l1
  /\ StronglySorted R l2
  /\ (forall x y, In x l1 -> In y l2 -> R x y).
Proof.
  induction l1 as [|a l1 IH]; simpl; intros S.
  - split; [constructor|]. split; [exact S|]. intros x y [].
  - apply StronglySorted_inv in S as [S F].
    destruct (IH S) as [S1 [S2 H]].
    rewrite Forall_forall in F.
    split; [|split; [exact S2|]].
    + constructor; [exact S1|]. apply Forall_forall. intros y Hy.
      apply F, in_or_app. auto.
    + intros x y [<- | Hx] Hy; [|auto].
      apply F, in_or_app. auto.
Qed.

(** The rows kept by the limit are in order, and every row of the table
    that is cut off has a count no greater than the count of any row
    kept. *)
Lemma limit_ordered (table out : list (string * Z)) (k : nat) :
  ordered_desc table out ->
  StronglySorted by_count_desc (limit k out)
  /\ (forall x y, In x (limit k out) -> In y table -> ~ In y (limit k out) ->
                  snd y <= snd x).
Proof.
  intros [P S]. unfold limit.
  rewrite <- (firstn_skipn k out) in S.
  apply StronglySorted_app_inv in S as [S1 [_ H]].
  split; [exact S1|].
  intros x y Hx Hy Hny.
  apply (Permutation_in _ P) in Hy.
  rewrite <- (firstn_skipn k out) in Hy.
  apply in_app_or in Hy as [Hy | Hy]; [contradiction|].
  apply (H x y Hx Hy).
Qed.

Lemma group_count_nonneg (rows : list string) :
  Forall (fun n => 0 <= n) (map snd (group_count rows)).
Proof.
  apply Forall_forall. intros n H.
  apply in_map_iff in H as [[k n'] [E H]]. simpl in E. subst n'.
  apply group_count_in in H as [_ ->]. lia.
Qed.


Lemma filter_perm {A : Type} (f : A -> bool) (l1 l2 : list A) :
  Permutation l1 l2 -> Permutation (filter f l1) (filter f l2).
Proof.
  induction 1 as [|x l1 l2 P IH|x y l|l1 l2 l3 P1 IH1 P2 IH2]; simpl.
  - constructor.
  - destruct (f x); [apply perm_skip|]; exact IH.
  - destruct (f x), (f y); try apply Permutation_refl. apply perm_swap.
  - eapply perm_trans; eassumption.
Qed.

(** In a table in order, the rows with at least a given count come
    first. *)
Lemma filter_prefix (c : Z) (o : list (string * Z)) :
  StronglySorted by_count_desc o ->
  filter (at_least c) o = firstn (length (filter (at_least c) o)) o.
Proof.
  induction 1 as [|a o S IH F]; [reflexivity|].
  simpl. destruct (at_least c a) eqn:Ea.
  - simpl. f_equal. exact IH.
  - assert (E : filter (at_least c) o = []).
    { clear IH. induction o as [|b o IHo]; [reflexivity|].
      apply Forall_cons_iff in F as [Hb F].
      apply StronglySorted_inv in S as [S _].
      simpl. unfold at_least, by_count_desc in *.
      apply Z.leb_gt in Ea.
      destruct (c <=? snd b) eqn:Eb; [apply Z.leb_le in Eb; lia|].
      apply IHo; assumption. }
    rewrite E. reflexivity.
Qed.

Lemma firstn_min {A : Type} (k : nat) (l : list A) :
  firstn (Nat.min k (length l)) l = firstn k l.
Proof.
  destruct (Nat.le_ge_cases k (length l)) as [H | H].
  - rewrite Nat.min_l by exact H. reflexivity.
  - rewrite Nat.min_r by exact H.
    rewrite !firstn_all2 by lia. reflexivity.
Qed.

(** When a count separates the rows kept, the limit keeps the rows with
    at least that count. *)
Lemma limit_is_filter (k : nat) (table o : list (string * Z)) (c : Z) :
  ordered_desc table o ->
  length (filter (at_least c) table) = Nat.min k (length table) ->
  limit k o = filter (at_least c) o.
Proof.
  intros [P S] Hlen. unfold limit.
  rewrite (filter_prefix c S).
  rewrite <- (Permutation_length (filter_perm (at_least c) P)), Hlen.
  rewrite (Permutation_length P). symmetry. apply firstn_min.
Qed.

Lemma clean_cut_rows (k : nat) (table oA oB : list (string * Z)) :
  clean_cut k table ->
  ordered_desc table oA -> ordered_desc table oB ->
  Permutation (limit k oA) (limit k oB).
Proof.
  intros [c Hc] HA HB.
  rewrite (limit_is_filter k c HA Hc), (limit_is_filter k c HB Hc).
  destruct HA as [PA _], HB as [PB _].
  apply filter_perm.
  eapply perm_trans; [apply Permutation_sym; exact PA | exact PB].
Qed.

Lemma no_tie_rows (k : nat) (table oA oB : list (string * Z)) :
  no_tie_kept k table ->
  ordered_desc table oA -> ordered_desc table oB ->
  limit k oA = limit k oB.
Proof.
  intros [c [Hc ND]] HA HB.
  assert (P : Permutation (limit k oA) (limit k oB))
    by (apply (@clean_cut_rows k table); [exists c; exact Hc | assumption..]).
  apply StronglySorted_perm_unique with (R := by_count_desc).
  - intros x y Hx Hy H1 H2. unfold by_count_desc in *.
    apply (@NoDup_map_inj _ _ snd (limit k oA)); try assumption; [|lia].
    rewrite (limit_is_filter k c HA Hc).
    eapply Permutation_NoDup; [|exact ND].
    apply Permutation_map, filter_perm. destruct HA as [PA _]. exact PA.
  - exact P.
  - apply (@limit_ordered _ _ k HA).
  - apply (@limit_ordered _ _ k HB).
Qed.

(** The order of a table is a matter of its column of counts. *)
Lemma sorted_by_counts (l : list (string * Z)) :
  StronglySorted (fun m n : Z => n <= m) (map snd l) ->
  StronglySorted by_count_desc l.
Proof.
  induction l as [|a l IH]; simpl; intros S; [constructor|].
  apply StronglySorted_inv in S as [S F].
  constructor; [apply IH, S|].
  rewrite Forall_forall in *. intros x Hx. apply F, in_map, Hx.
Qed.

(** Two neighbours of equal count may change places. *)
Lemma swap_ordered (table l1 l2 : list (string * Z)) (x y : string * Z) :
  ordered_desc table (l1 ++ x :: y :: l2) -> snd x = snd y ->
  ordered_desc table (l1 ++ y :: x :: l2).
Proof.
  intros [P S] E. split.
  - eapply perm_trans; [exact P|].
    apply Permutation_app_head, perm_swap.
  - apply sorted_by_counts.
    rewrite map_app. simpl. rewrite <- E.
    assert (S' : StronglySorted (fun m n : Z => n <= m)
                   (map snd (l1 ++ x :: y :: l2))).
    { apply StronglySorted_map with (R := by_count_desc); [|exact S]. auto. }
    rewrite map_app in S'. simpl in S'. rewrite <- E in S'. exact S'.
Qed.

Lemma firstn_app_exact {A : Type} (l1 l2 : list A) :
  firstn (length l1) (l1 ++ l2) = l1.
Proof.
  rewrite firstn_app, Nat.sub_diag, firstn_all. simpl. apply app_nil_r.
Qed.

(** Either a count separates the rows kept by the limit, or the two rows
    on either side of the cut have the same count and may change places:
    then some admissible order keeps another row. *)
Lemma cut_clean_or_swap (k : nat) (table o : list (string * Z)) :
  NoDup table -> Forall (fun x => 0 <= snd x) table ->
  ordered_desc table o ->
  clean_cut (S k) table
  \/ exists o' x,
       ordered_desc table o'
       /\ In x (limit (S k) o) /\ ~ In x (limit (S k) o').
Proof.
  intros ND Hpos Hord. pose proof Hord as [P Srt].
  destruct (Nat.le_gt_cases (length table) (S k)) as [Hle | Hgt].
  - left. exists 0.
    rewrite Nat.min_r by exact Hle. f_equal.
    apply forallb_filter_id. apply forallb_forall. intros x Hx.
    rewrite Forall_forall in Hpos. apply Z.leb_le, Hpos, Hx.
  - rewrite (Permutation_length P) in Hgt.
    pose proof (firstn_skipn k o) as Eo.
    assert (Hl1 : length (firstn k o) = k)
      by (rewrite length_firstn; lia).
    assert (Hl2 : (2 <= length (skipn k o))%nat)
      by (rewrite length_skipn; lia).
    destruct (skipn k o) as [|x [|y l2]]; simpl in Hl2; try lia.
    set (l1 := firstn k o) in *.
    assert (Hcut : forall z l, limit (S k) (l1 ++ z :: l) = l1 ++ [z]).
    { intros z l. unfold limit.
      change (l1 ++ z :: l) with (l1 ++ [z] ++ l). rewrite app_assoc.
      replace (S k) with (length (l1 ++ [z]))
        by (rewrite length_app; simpl; lia).
      apply firstn_app_exact. }
    destruct (Z.eq_dec (snd x) (snd y)) as [E | NE].
    + right. exists (l1 ++ y :: x :: l2), x.
      split; [apply swap_ordered; [rewrite Eo; exact Hord | exact E]|].
      rewrite <- Eo, !Hcut. split; [apply in_or_app; right; left; reflexivity|].
      assert (NDo : NoDup (l1 ++ x :: y :: l2)).
      { rewrite Eo. eapply Permutation_NoDup; [exact P | exact ND]. }
      intros Hin. apply in_app_or in Hin as [Hin | [Hin | []]].
      * apply NoDup_remove_2 in NDo. apply NDo, in_or_app. auto.
      * subst y. apply NoDup_app_remove_l in NDo.
        apply NoDup_cons_iff in NDo as [NDo _]. apply NDo. left. reflexivity.
    + left. exists (snd x).
      rewrite (Permutation_length (filter_perm _ P)), (Permutation_length P).
      rewrite Nat.min_l by lia.
      rewrite <- Eo in Srt |- *.
      change (l1 ++ x :: y :: l2) with (l1 ++ [x] ++ y :: l2) in Srt |- *.
      rewrite app_assoc in Srt |- *.
      apply StronglySorted_app_inv in Srt as [S1 [S2 H12]].
      rewrite filter_app.
      assert (Hx : In x (l1 ++ [x])) by (apply in_or_app; right; left; reflexivity).
      assert (E1 : filter (at_least (snd x)) (l1 ++ [x]) = l1 ++ [x]).
      { apply forallb_filter_id, forallb_forall. intros z Hz.
        unfold at_least. apply Z.leb_le.
        apply in_app_or in Hz as [Hz | [<- | []]]; [|lia].
        apply StronglySorted_app_inv in S1 as [_ [_ H]].
        apply (H z x Hz). left. reflexivity. }
      assert (E2 : filter (at_least (snd x)) (y :: l2) = []).
      { assert (Hy : snd y < snd x).
        { pose proof (H12 x y Hx (or_introl eq_refl)) as H.
          unfold by_count_desc in H. lia. }
        apply StronglySorted_inv in S2 as [_ F2].
        rewrite Forall_forall in F2.
        assert (Hall : forall z, In z (y :: l2) -> at_least (snd x) z = false).
        { intros z [<- | Hz]; unfold at_least; apply Z.leb_gt; [lia|].
          pose proof (F2 z Hz) as H. unfold by_count_desc in H. lia. }
        clear - Hall. induction (y :: l2) as [|z l IH]; [reflexivity|].
        simpl. rewrite (Hall z (or_introl eq_refl)).
        apply IH. intros w Hw. apply Hall. right. exact Hw. }
      rewrite E1, E2, app_nil_r, length_app. simpl. lia.
Qed.

(** A non-increasing list of counts without two equal neighbours has no
    two equal counts at all. *)
Lemma sorted_dup (counts : list Z) :
  StronglySorted (fun m n : Z => n <= m) counts ->
  NoDup counts \/ exists a v b, counts = a ++ v :: v :: b.
Proof.
  induction 1 as [|m counts S IH F]; [left; constructor|].
  destruct IH as [ND | [a [v [b E]]]].
  - destruct counts as [|n counts]; [left; repeat constructor; intros []|].
    destruct (Z.eq_dec m n) as [-> | NE].
    + right. exists [], n, counts. reflexivity.
    + left. constructor; [|exact ND].
      intros Hin. rewrite Forall_forall in F.
      pose proof (F n (or_introl eq_refl)) as H1.
      apply StronglySorted_inv in S as [_ Fn]. rewrite Forall_forall in Fn.
      destruct Hin as [E | Hin]; [congruence|].
      pose proof (Fn m Hin). lia.
  - right. exists (m :: a), v, b. rewrite E. reflexivity.
Qed.

(** Either the rows kept by the limit have different counts, or two
    neighbours among them may change places: then some admissible order
    gives another list. *)
Lemma tie_or_swap (k : nat) (table o : list (string * Z)) :
  NoDup table -> ordered_desc table o ->
  NoDup (map snd (limit k o))
  \/ exists o', ordered_desc table o' /\ limit k o' <> limit k o.
Proof.
  intros ND Hord. pose proof Hord as [P S].
  destruct (@limit_ordered _ _ k Hord) as [SK _].
  assert (SK' : StronglySorted (fun m n : Z => n <= m)
                  (map snd (limit k o))).
  { apply StronglySorted_map with (R := by_count_desc); [|exact SK]. auto. }
  destruct (sorted_dup SK') as [NDK | [a [v [b E]]]]; [left; exact NDK|].
  right.
  apply map_eq_app in E as [k1 [rest [EK [Ea Er]]]].
  apply map_eq_cons in Er as [x [rest' [Er [Ex Er']]]].
  apply map_eq_cons in Er' as [y [k2 [Er' [Ey Eb]]]].
  subst rest rest'.
  pose proof (firstn_skipn k o) as Eo.
  unfold limit in EK. rewrite EK in Eo.
  rewrite <- !app_assoc in Eo. simpl in Eo.
  exists (k1 ++ y :: x :: (k2 ++ skipn k o)).
  split; [apply swap_ordered; [rewrite Eo; exact Hord | congruence]|].
  assert (Hlen : length (k1 ++ x :: y :: k2) = Nat.min k (length o))
    by (rewrite <- EK; apply length_firstn).
  assert (E' : limit k (k1 ++ y :: x :: k2 ++ skipn k o) = k1 ++ y :: x :: k2).
  { unfold limit.
    change (k1 ++ y :: x :: k2 ++ skipn k o)
      with (k1 ++ (y :: x :: k2) ++ skipn k o).
    rewrite app_assoc.
    assert (Hlen' : length (k1 ++ y :: x :: k2) = Nat.min k (length o))
      by (rewrite <- Hlen, !length_app; reflexivity).
    destruct (Nat.le_ge_cases k (length o)) as [H | H].
    - rewrite Nat.min_l in Hlen' by exact H. rewrite <- Hlen'.
      apply firstn_app_exact.
    - assert (Es : skipn k o = []) by (apply skipn_all2; exact H).
      rewrite Es, app_nil_r. apply firstn_all2.
      rewrite Hlen'. apply Nat.le_min_l. }
  rewrite E'. unfold limit. rewrite EK.
  intros Heq. apply app_inv_head in Heq.
  assert (Hyx : y = x) by congruence.
  assert (NDo : NoDup (k1 ++ x :: y :: k2 ++ skipn k o)).
  { rewrite Eo. eapply Permutation_NoDup; [exact P | exact ND]. }
  apply NoDup_app_remove_l in NDo.
  apply NoDup_cons_iff in NDo as [NDo _]. apply NDo. left. exact Hyx.
Qed.

(** The rows of a grouping are distinct and their counts are not
    negative. *)
Lemma group_count_rows (rows : list string) :
  NoDup (group_count rows)
  /\ Forall (fun x : string * Z => 0 <= snd x) (group_count rows).
Proof.
  split.
  - apply (NoDup_map_inv fst), group_count_keys.
  - apply Forall_map with (f := snd) (P := fun n : Z => 0 <= n).
    apply group_count_nonneg.
Qed.

(** Every admissible order keeps the same rows exactly when a count
    separates the rows kept from the rows cut off. *)
Lemma limit_rows_iff (k : nat) (table : list (string * Z)) :
  NoDup table -> Forall (fun x => 0 <= snd x) table ->
  ((forall oA oB, ordered_desc table oA -> ordered_desc table oB ->
                  Permutation (limit (S k) oA) (limit (S k) oB))
   <-> clean_cut (S k) table).
Proof.
  intros ND Hpos. split.
  - intros H.
    destruct (cut_clean_or_swap k ND Hpos (ordered_desc_exists table))
      as [Hc | [o' [x [Ho' [Hin Hnin]]]]]; [exact Hc|].
    exfalso. apply Hnin.
    eapply Permutation_in; [|exact Hin].
    apply H; [apply ordered_desc_exists | exact Ho'].
  - intros Hc oA oB HA HB. apply (@clean_cut_rows (S k) table); assumption.
Qed.

(** Every admissible order keeps the same list exactly when, besides, no
    two rows kept have the same count. *)
Lemma limit_unique_iff (k : nat) (table : list (string * Z)) :
  NoDup table -> Forall (fun x => 0 <= snd x) table ->
  ((forall oA oB, ordered_desc table oA -> ordered_desc table oB ->
                  limit (S k) oA = limit (S k) oB)
   <-> no_tie_kept (S k) table).
Proof.
  intros ND Hpos. split.
  - intros H.
    pose proof (ordered_desc_exists table) as Hord.
    assert (Hcut : clean_cut (S k) table).
    { apply (limit_rows_iff k ND Hpos). intros oA oB HA HB.
      rewrite (H oA oB HA HB). apply Permutation_refl. }
    destruct Hcut as [c Hc]. exists c. split; [exact Hc|].
    destruct (@tie_or_swap (S k) table _ ND Hord) as [NDk | [o' [Ho' Hne]]].
    + rewrite (limit_is_filter (S k) c Hord Hc) in NDk.
      eapply Permutation_NoDup; [|exact NDk].
      apply Permutation_map, filter_perm, Permutation_sym.
      destruct Hord as [P _]. exact P.
    + exfalso. apply Hne, H; assumption.
  - intros Hn oA oB HA HB. apply (@no_tie_rows (S k) table); assumption.
Qed.

End Cut.

(** C5 (as it holds).  For every corpus the two paths admit the same
    top-20 word-frequency results, a result exists, and any result of
    Path A and any result of Path B show the same counts position by
    position.  Every result of Path A is the same ordered list of
    (token, count) as every result of Path B exactly when some count
    separates the words kept from the words cut off and no two words kept
    have the same count.  Among words of equal count the engine fixes no
    order and the script asks for none. *)
Theorem frequency_paths_agree (corpus : list string) :
  (forall res, pysparkRes corpus res <-> sqlRes corpus res)
  /\ (exists res, pysparkRes corpus res)
  /\ (forall resA resB,
         pysparkRes corpus resA -> sqlRes corpus resB ->
         map snd resA = map snd resB)
  /\ ((forall resA resB,
          pysparkRes corpus resA -> sqlRes corpus resB -> resA = resB)
      <-> no_tie_kept 20 (group_count (words_df corpus))).
Proof.
  split; [|split; [|split]].
  - intros res. rewrite sqlRes_iff, pysparkRes_iff. reflexivity.
  - exists (limit 20 (sorted count_geb (group_count (words_df corpus)))).
    apply pysparkRes_iff. eexists. split; [apply ordered_desc_exists | reflexivity].
  - intros resA resB HA HB.
    apply pysparkRes_iff in HA as [oA [HoA ->]].
    apply sqlRes_iff in HB as [oB [HoB ->]].
    rewrite !limit_counts. f_equal. eapply ordered_desc_counts; eauto.
  - destruct (group_count_rows (words_df corpus)) as [ND Hpos].
    rewrite <- (limit_unique_iff 19 ND Hpos). split.
    + intros H oA oB HoA HoB. apply H.
      * apply pysparkRes_iff. eauto.
      * apply sqlRes_iff. eauto.
    + intros H resA resB HA HB.
      apply pysparkRes_iff in HA as [oA [HoA ->]].
      apply sqlRes_iff in HB as [oB [HoB ->]].
      apply H; assumption.
Qed.

Lemma frequency_paths_agree_witness :
  let corpus :=
    ["a b c d e f g h i j k l m n o p q r s t u v";
     "a b c d e f g h i j k l m n o p q r s t";
     "a b c d e f g h i j k l m n o p q r s";
     "a b c d e f g h i j k l m n o p q r";
     "a b c d e f g h i j k l m n o p q";
     "a b c d e f g h i j k l m n o p";
     "a b c d e f g h i j k l m n o";
     "a b c d e f g h i j k l m n";
     "a b c d e f g h i j k l m";
     "a b c d e f g h i j k l";
     "a b c d e f g h i j k";
     "a b c d e f g h i j";
     "a b c d e f g h i";
     "a b c d e f g h";
     "a b c d e f g";
     "a b c d e f";
     "a b c d e";
     "a b c d";
     "a b c";
     "a b";
     "a"] in
  length (group_count (words_df corpus)) = 22%nat
  /\ lookup "u" (group_count (words_df corpus)) = Some 1
  /\ lookup "v" (group_count (words_df corpus)) = Some 1
  /\ no_tie_kept 20 (group_count (words_df corpus))
  /\ (forall resA resB,
         pysparkRes corpus resA -> sqlRes corpus resB -> resA = resB).
Proof.
  intros corpus.
  assert (H : no_tie_kept 20 (group_count (words_df corpus))).
  { exists 2. split; [vm_compute; reflexivity|].
    vm_compute.
    repeat (constructor;
            [intros H; simpl in H;
             repeat (destruct H as [H | H]; [discriminate H|]); exact H|]).
    constructor. }
  split; [vm_compute; reflexivity|].
  split; [vm_compute; reflexivity|].
  split; [vm_compute; reflexivity|].
  split; [exact H|].
  apply (proj2 (proj2 (proj2 (proj2 (frequency_paths_agree corpus))))).
  exact H.
Defined.

(** C5, the counterexample: on the one line "cat dog" both words have
    count 1, and the list with "cat" first is a result of Path A while the
    list with "dog" first is a result of Path B. *)
Lemma frequency_paths_tie :
  pysparkRes ["cat dog"] [("cat", 1); ("dog", 1)]
  /\ sqlRes ["cat dog"] [("dog", 1); ("cat", 1)]
  /\ [("cat", 1); ("dog", 1)] <> [("dog", 1); ("cat", 1)].
Proof.
  split; [|split].
  - exists [("cat", 1); ("dog", 1)]. split; [|reflexivity].
    apply same_count_ordered with (c := 1); [repeat constructor | apply Permutation_refl].
  - apply sqlRes_iff.
    exists [("dog", 1); ("cat", 1)]. split; [|reflexivity].
    apply same_count_ordered with (c := 1); [repeat constructor | apply perm_swap].
  - discriminate.
Qed.

(** C2 (as it holds).  For every corpus the view pair_table of Path B
    holds the rows that Path A obtains with the same pairing function, the
    two paths admit the same sorted top-20 pair results, a result exists,
    and every entry of a result is an entry of the one table of pair
    counts.  Every result of Path A equals every result of Path B exactly
    when some count separates the pairs kept from the pairs cut off;
    otherwise the cut at 20 falls among pairs of equal count and may keep
    different pairs. *)
Theorem pair_paths_agree (corpus : list string) :
  (exists s, spark_pairs corpus = Some s
             /\ lookup "pair_table" (views s) = Some (Strings "pair" (pySparkPair corpus)))
  /\ (forall res, pysparkPairRes corpus res <-> sqlPairRes corpus res)
  /\ (exists res, pysparkPairRes corpus res)
  /\ (forall resA resB,
         pysparkPairRes corpus resA -> sqlPairRes corpus resB ->
         forall entry, In entry resA \/ In entry resB ->
                       In entry (group_count (pySparkPair corpus)))
  /\ ((forall resA resB,
          pysparkPairRes corpus resA -> sqlPairRes corpus resB -> resA = resB)
      <-> clean_cut 20 (group_count (pySparkPair corpus))).
Proof.
  split; [|split; [|split; [|split]]].
  - eexists. split; [apply spark_pairs_session|].
    rewrite pySparkPair_rows. reflexivity.
  - intros res. symmetry. apply sqlPairRes_iff.
  - eexists. eexists. split; [|reflexivity].
    eexists. split; [apply ordered_desc_exists | reflexivity].
  - intros resA resB HA HB.
    apply sqlPairRes_iff in HB.
    destruct HA as [rA [[oA [[PA SA] ->]] ->]].
    destruct HB as [rB [[oB [[PB SB] ->]] ->]].
    intros entry [H | H]; apply sorted_in, limit_in in H.
    + eapply Permutation_in; [apply Permutation_sym; exact PA | exact H].
    + eapply Permutation_in; [apply Permutation_sym; exact PB | exact H].
  - destruct (group_count_rows (pySparkPair corpus)) as [ND Hpos].
    rewrite <- (limit_rows_iff 19 ND Hpos). split.
    + intros H oA oB HoA HoB.
      assert (E : sorted tuple_leb (limit 20 oA) = sorted tuple_leb (limit 20 oB)).
      { apply H; [|apply sqlPairRes_iff].
        - exists (limit 20 oA). split; [|reflexivity].
          exists oA. split; [exact HoA | reflexivity].
        - exists (limit 20 oB). split; [|reflexivity].
          exists oB. split; [exact HoB | reflexivity]. }
      eapply perm_trans; [apply (sorted_perm tuple_leb)|].
      rewrite E. apply Permutation_sym, sorted_perm.
    + intros H resA resB HA HB.
      apply sqlPairRes_iff in HB.
      destruct HA as [rA [[oA [HoA ->]] ->]].
      destruct HB as [rB [[oB [HoB ->]] ->]].
      apply sorted_of_perm;
        [apply tuple_leb_total | apply tuple_leb_trans | apply tuple_leb_antisym |].
      apply H; assumption.
Qed.

Lemma pair_paths_agree_witness :
  let corpus := ["a b c d e f"; "a b c d e"; "a f"; "b f"; "c f"; "d f"] in
  length (group_count (pySparkPair corpus)) = 21%nat
  /\ lookup "e|f" (group_count (pySparkPair corpus)) = Some 1
  /\ clean_cut 20 (group_count (pySparkPair corpus))
  /\ (forall resA resB,
         pysparkPairRes corpus resA -> sqlPairRes corpus resB -> resA = resB).
Proof.
  intros corpus.
  assert (H : clean_cut 20 (group_count (pySparkPair corpus)))
    by (exists 2; vm_compute; reflexivity).
  split; [vm_compute; reflexivity|].
  split; [vm_compute; reflexivity|].
  split; [exact H|].
  apply (proj2 (proj2 (proj2 (proj2 (pair_paths_agree corpus))))).
  exact H.
Defined.

(** C2, the counterexample: the line "a b c d e f" has 21 pairs, each of
    count 1.  Keeping the first 20 of them in the order of the table is a
    result of Path A, keeping the first 20 in the reverse order is a result
    of Path B; the pair "f|f" is in the second and not in the first, so the
    two sorted lists differ. *)
Lemma pair_paths_cut_differs :
  let corpus := ["a b c d e f"] in
  let table := map (fun key => (key, 1)) (generate_pairs ["a"; "b"; "c"; "d"; "e"; "f"]) in
  group_count (pySparkPair corpus) = table
  /\ length table = 21%nat
  /\ pysparkPairRes corpus (sorted tuple_leb (limit 20 table))
  /\ sqlPairRes corpus (sorted tuple_leb (limit 20 (rev table)))
  /\ In ("f|f", 1) (sorted tuple_leb (limit 20 (rev table)))
  /\ ~ In ("f|f", 1) (sorted tuple_leb (limit 20 table)).
Proof.
  intros corpus table.
  assert (HT : group_count (pySparkPair corpus) = table) by (vm_compute; reflexivity).
  assert (F : Forall (fun x : string * Z => snd x = 1) table).
  { apply Forall_forall. intros x Hx. unfold table in Hx.
    apply in_map_iff in Hx as [k [<- _]]. reflexivity. }
  split; [exact HT|].
  split; [reflexivity|].
  split; [|split; [|split]].
  - exists (limit 20 table). split; [|reflexivity].
    exists table. split; [|reflexivity].
    rewrite HT. apply same_count_ordered with (c := 1); [exact F | apply Permutation_refl].
  - apply sqlPairRes_iff.
    exists (limit 20 (rev table)). split; [|reflexivity].
    exists (rev table). split; [|reflexivity].
    rewrite HT. apply same_count_ordered with (c := 1); [exact F | apply Permutation_rev].
  - vm_compute. tauto.
  - vm_compute. intros H.
    repeat (destruct H as [H | H]; [discriminate H|]). exact H.
Qed.

(** ** The scenario of two lines *)

Section Scenario.

Lemma scenario_frequency_table :
  group_count (words_df ["cat dog cat"; "dog bird"])
  = [("cat", 2); ("dog", 2); ("bird", 1)].
Proof. reflexivity. Qed.

(** The two arrangements of the table in which the counts never increase. *)
Lemma scenario_orders (out : list (string * Z)) :
  ordered_desc [("cat", 2); ("dog", 2); ("bird", 1)] out
  <-> out = [("cat", 2); ("dog", 2); ("bird", 1)]
      \/ out = [("dog", 2); ("cat", 2); ("bird", 1)].
Proof.
  set (table := [("cat", 2); ("dog", 2); ("bird", 1)]).
  split.
  - intros H.
    assert (H0 : ordered_desc table table).
    { split; [apply Permutation_refl|].
      repeat constructor; unfold by_count_desc; simpl; lia. }
    pose proof (ordered_desc_counts H H0) as Hc.
    destruct H as [P _].
    assert (ND : NoDup out).
    { eapply Permutation_NoDup; [exact P|].
      repeat constructor; simpl; intuition discriminate. }
    assert (Hin : forall x, In x out -> In x table)
      by (intros x; apply Permutation_in, Permutation_sym, P).
    destruct out as [|x [|y [|z [|? ?]]]]; try discriminate Hc.
    simpl in Hc. inversion Hc as [[Hx Hy Hz]].
    pose proof (Hin x (or_introl eq_refl)) as Ix.
    pose proof (Hin y (or_intror (or_introl eq_refl))) as Iy.
    pose proof (Hin z (or_intror (or_intror (or_introl eq_refl)))) as Iz.
    simpl in Ix, Iy, Iz.
    destruct Ix as [<- | [<- | [<- | []]]]; try discriminate Hx;
      destruct Iy as [<- | [<- | [<- | []]]]; try discriminate Hy;
      destruct Iz as [<- | [<- | [<- | []]]]; try discriminate Hz;
      auto;
      exfalso; apply NoDup_cons_iff in ND as [ND _]; apply ND; left; reflexivity.
  - intros [-> | ->].
    + split; [apply Permutation_refl|].
      repeat constructor; unfold by_count_desc; simpl; lia.
    + split; [apply perm_swap|].
      repeat constructor; unfold by_count_desc; simpl; lia.
Qed.

Lemma scenario_frequency (res : list (string * Z)) :
  (exists out,
      ordered_desc (group_count (words_df ["cat dog cat"; "dog bird"])) out
      /\ res = limit 20 out)
  <-> res = [("cat", 2); ("dog", 2); ("bird", 1)]
      \/ res = [("dog", 2); ("cat", 2); ("bird", 1)].
Proof.
  rewrite scenario_frequency_table. split.
  - intros [out [H ->]]. apply scenario_orders in H as [-> | ->]; auto.
  - intros [-> | ->]; eexists; (split; [apply scenario_orders|]);
      [left | | right | ]; reflexivity.
Qed.

End Scenario.

(** C9.  For the corpus of the two lines "cat dog cat" and "dog bird": the
    flat-token total is 5 on both paths; the top word frequencies are
    ("cat", 2), ("dog", 2), ("bird", 1), the two entries of count 2 in
    either order, and nothing else, on both paths; the pairs of the two
    lines are counted as "dog|dog" 2 and "cat|cat", "cat|dog",
    "bird|bird", "bird|dog" 1 each, and both paths report exactly these
    five entries. *)
Theorem scenario_cat_dog_bird :
  let corpus := ["cat dog cat"; "dog bird"] in
  let top := [("cat", 2); ("dog", 2); ("bird", 1)] in
  let top' := [("dog", 2); ("cat", 2); ("bird", 1)] in
  words_df corpus = ["cat"; "dog"; "cat"; "dog"; "bird"]
  /\ pySparkWordCount corpus = 5
  /\ sqlCountVal corpus = Some 5
  /\ (forall res, pysparkRes corpus res <-> res = top \/ res = top')
  /\ (forall res, sqlRes corpus res <-> res = top \/ res = top')
  /\ map generate_pairs (tokenized_df corpus)
     = [["cat|cat"; "cat|dog"; "dog|dog"]; ["bird|bird"; "bird|dog"; "dog|dog"]]
  /\ group_count (pySparkPair corpus)
     = [("cat|cat", 1); ("cat|dog", 1); ("dog|dog", 2); ("bird|bird", 1); ("bird|dog", 1)]
  /\ (forall res,
        pysparkPairRes corpus res \/ sqlPairRes corpus res <->
        res = [("bird|bird", 1); ("bird|dog", 1); ("cat|cat", 1); ("cat|dog", 1);
               ("dog|dog", 2)]).
Proof.
  intros corpus top top'.
  split; [reflexivity|]. split; [reflexivity|]. split; [reflexivity|].
  split; [intros res; rewrite pysparkRes_iff; apply scenario_frequency|].
  split; [intros res; rewrite sqlRes_iff; apply scenario_frequency|].
  split; [reflexivity|]. split; [reflexivity|].
  intros res. rewrite sqlPairRes_iff. split.
  - intros H. assert (HA : pysparkPairRes corpus res) by tauto.
    apply pysparkPairRes_whole in HA; [exact HA | simpl; lia].
  - intros ->. left.
    exists [("dog|dog", 2); ("cat|cat", 1); ("cat|dog", 1); ("bird|bird", 1);
            ("bird|dog", 1)].
    split; [|reflexivity].
    exists [("dog|dog", 2); ("cat|cat", 1); ("cat|dog", 1); ("bird|bird", 1);
            ("bird|dog", 1)].
    split; [|reflexivity].
    split.
    + change (group_count (pySparkPair corpus))
        with [("cat|cat", 1); ("cat|dog", 1); ("dog|dog", 2); ("bird|bird", 1);
              ("bird|dog", 1)].
      apply Permutation_sym.
      apply (Permutation_middle [("cat|cat", 1); ("cat|dog", 1)]
               [("bird|bird", 1); ("bird|dog", 1)] ("dog|dog", 2)).
    + repeat constructor; unfold by_count_desc; simpl; lia.
Qed.

Lemma scenario_cat_dog_bird_witness :
  pysparkRes ["cat dog cat"; "dog bird"] [("dog", 2); ("cat", 2); ("bird", 1)]
  /\ sqlRes ["cat dog cat"; "dog bird"] [("cat", 2); ("dog", 2); ("bird", 1)].
Proof.
  destruct scenario_cat_dog_bird as [_ [_ [_ [HA [HB _]]]]].
  split.
  - apply HA. right. reflexivity.
  - apply HB. left. reflexivity.
Defined.

(** ** Lines without letters *)

Lemma filter_nonblank_empty (row : list string) :
  Forall (fun w => w = EmptyString) row -> filter nonblank row = [].
Proof.
  induction 1 as [|w row Hw F IH]; [reflexivity|].
  subst w. simpl. exact IH.
Qed.

Lemma no_letter_row (line : string) :
  no_letter line ->
  Forall (fun w => w = EmptyString)
         (split is_space (trim (regexp_replace not_az_space (lower line)))).
Proof.
  intros H. apply split_go_spaces, all_chars_trim, cleaned_no_letter, H.
Qed.

Lemma is_blank_lower_char (c : ascii) : is_blank (lower_char c) = is_blank c.
Proof.
  destruct c as [b0 b1 b2 b3 b4 b5 b6 b7].
  destruct b0, b1, b2, b3, b4, b5, b6, b7; reflexivity.
Qed.

(** On a line without letters whose only white space is the space, the
    regular expression leaves spaces only. *)
Lemma cleaned_blank (line : string) :
  no_letter line -> spaces_only line ->
  all_chars is_blank (regexp_replace not_az_space (lower line)) = true.
Proof.
  unfold no_letter, spaces_only.
  induction line as [|c r IH]; [reflexivity|].
  intros H Hsp. cbn [letter_free] in H. cbn [all_chars] in Hsp.
  apply andb_true_iff in H as [H Hr]. apply andb_true_iff in H as [Hc Hs].
  apply andb_true_iff in Hsp as [Hb Hsp].
  apply negb_true_iff in Hc, Hs.
  rewrite (lower_step _ _ Hs). cbn [regexp_replace].
  unfold not_az_space at 1.
  rewrite is_az_lower_char, Hc, is_space_lower_char. simpl.
  destruct (is_space c) eqn:E; simpl; auto.
  simpl in Hb. rewrite is_blank_lower_char, Hb. simpl. auto.
Qed.

Lemma strip_left_all (p : ascii -> bool) (s : string) :
  all_chars p s = true -> strip_left p s = EmptyString.
Proof.
  induction s as [|c r IH]; simpl; [reflexivity|].
  intros H. apply andb_true_iff in H as [-> Hr]. auto.
Qed.

Lemma no_letter_spaces_row (line : string) :
  no_letter line -> spaces_only line ->
  split is_space (trim (regexp_replace not_az_space (lower line))) = [EmptyString].
Proof.
  intros H Hsp. unfold trim, strip.
  rewrite (strip_left_all _ _ (cleaned_blank H Hsp)). reflexivity.
Qed.

(** C6 (as it holds).  A line without any alphabetic character contributes
    no row to the flat-token view and exactly one row to the line-token
    view.  That row is not the empty sequence: it holds one or more empty
    strings and nothing else, and it is the sequence of one empty string
    whenever the only white space of the line is the space character. *)
Theorem punctuation_line_rows (line : string) (corpus : list string) :
  no_letter line ->
  words_df [line] = []
  /\ words_df (line :: corpus) = words_df corpus
  /\ exists row,
       tokenized_df [line] = [row]
       /\ tokenized_df (line :: corpus) = row :: tokenized_df corpus
       /\ row <> []
       /\ Forall (fun w => w = EmptyString) row
       /\ (spaces_only line -> row = [EmptyString]).
Proof.
  intros H.
  assert (E : Spec.tokens line = []).
  { rewrite <- row_tokens. apply filter_nonblank_empty, no_letter_row, H. }
  split; [|split].
  - rewrite words_df_cons, E. reflexivity.
  - rewrite words_df_cons, E. reflexivity.
  - eexists. split; [reflexivity|]. split; [reflexivity|].
    split; [apply split_go_not_nil|].
    split; [apply no_letter_row, H|].
    apply no_letter_spaces_row, H.
Qed.

Lemma punctuation_line_rows_witness :
  no_letter "?! 42"
  /\ words_df ["?! 42"; "cat"] = words_df ["cat"]
  /\ tokenized_df ["?! 42"] = [[""]].
Proof.
  split; [reflexivity|].
  destruct (@punctuation_line_rows "?! 42" ["cat"] eq_refl)
    as [_ [Hflat [row [Hrow [_ [_ [_ Hone]]]]]]].
  split; [exact Hflat|].
  rewrite Hrow, (Hone eq_refl). reflexivity.
Defined.

(** C6, the counterexample: the line "?!" has no letter, and its row in
    the line-token view is not the empty sequence but the sequence of one
    empty string, the single piece that [split] returns for the empty
    string. *)
Lemma punctuation_line_row_not_empty :
  no_letter "?!"
  /\ tokenized_df ["?!"] = [[""]]
  /\ tokenized_df ["?!"] <> [[]].
Proof.
  split; [reflexivity|]. split; [reflexivity|]. discriminate.
Qed.

(** ** The keys of the pair statistic *)

(** Every key is built from two words of one row of the line-token view,
    the smaller first, and these words are made of letters a to z; nothing
    says that they are not empty. *)
Lemma pySparkPair_keys (corpus : list string) (key : string) :
  In key (pySparkPair corpus) ->
  exists row a b,
    In row (tokenized_df corpus) /\ In a row /\ In b row
    /\ az_word a /\ az_word b /\ string_le a b
    /\ key = (a ++ "|" ++ b)%string.
Proof.
  rewrite pySparkPair_rows. unfold explode.
  intros H. apply in_concat in H as [keys [Hkeys Hkey]].
  apply in_map_iff in Hkeys as [row [<- Hrow]].
  unfold generate_pairs in Hkey.
  apply in_map_iff in Hkey as [[a b] [<- Hab]].
  apply word_pairs_in in Hab as [Ha [Hb Hle]].
  pose proof (tokenized_df_az corpus row Hrow) as Haz.
  rewrite Forall_forall in Haz.
  exists row, a, b. repeat split; auto.
Qed.

(** C7, the code on a line without letters: the line "123" leaves the one
    row holding the empty string in the line-token view, [generate_pairs]
    turns it into the key "|", and both paths report the pair "|" with
    count 1. *)
Theorem blank_line_pair :
  tokenized_df ["123"] = [[""]]
  /\ words_df ["123"] = []
  /\ generate_pairs [""] = ["|"]
  /\ pySparkPair ["123"] = ["|"]
  /\ pysparkPairRes ["123"] [("|", 1)]
  /\ sqlPairRes ["123"] [("|", 1)].
Proof.
  assert (HA : pysparkPairRes ["123"] [("|", 1)]).
  { exists [("|", 1)]. split; [|reflexivity].
    exists [("|", 1)]. split; [|reflexivity].
    split; [apply Permutation_refl | repeat constructor]. }
  repeat (split; [reflexivity|]).
  split; [exact HA | apply sqlPairRes_iff, HA].
Qed.

(** ** The run of the script *)

Section Run.

Import Script.

Lemma rows_eqb_eq (l1 l2 : list (string * Z)) :
  rows_eqb l1 l2 = true <-> l1 = l2.
Proof.
  revert l2.
  induction l1 as [|[a m] l1 IH]; intros [|[b n] l2]; simpl;
    try (split; [discriminate | discriminate]); [tauto|].
  unfold tuple_eqb. simpl.
  rewrite !andb_true_iff, String.eqb_eq, Z.eqb_eq, IH.
  split.
  - intros [[-> ->] ->]. reflexivity.
  - intros E. inversion E. auto.
Qed.

Lemma rows_eqb_neq (l1 l2 : list (string * Z)) :
  l1 <> l2 -> rows_eqb l1 l2 = false.
Proof.
  intros H. destruct (rows_eqb l1 l2) eqn:E; [|reflexivity].
  apply rows_eqb_eq in E. contradiction.
Qed.

(** The run from a check onwards. *)
Lemma run_count_split (o : observed) :
  run o = (preamble ++ count_report o) ++ count_check o
          ++ (count_end ++ frequency_stage o ++ pairs_stage o ++ export_stage o).
Proof. unfold run, count_stage. rewrite <- !app_assoc. reflexivity. Qed.

Lemma run_frequency_split (o : observed) :
  run o = (preamble ++ count_stage o ++ frequency_report o) ++ frequency_check o
          ++ (frequency_end ++ pairs_stage o ++ export_stage o).
Proof. unfold run, frequency_stage. rewrite <- !app_assoc. reflexivity. Qed.

Lemma run_pairs_split (o : observed) :
  run o = (preamble ++ count_stage o ++ frequency_stage o ++ pairs_report o)
          ++ pairs_check o ++ (pairs_end ++ export_stage o).
Proof. unfold run, pairs_stage. rewrite <- !app_assoc. reflexivity. Qed.

Lemma count_check_mismatch (o : observed) :
  sqlCountVal o <> pySparkWordCount o -> count_check o = count_mismatch o.
Proof.
  intros H. unfold count_check.
  destruct (Z.eqb_spec (sqlCountVal o) (pySparkWordCount o)); [contradiction | reflexivity].
Qed.

Lemma frequency_check_mismatch (o : observed) :
  sqlRes o <> pysparkRes o -> frequency_check o = frequency_mismatch o.
Proof. intros H. unfold frequency_check. rewrite rows_eqb_neq; auto. Qed.

Lemma pairs_check_mismatch (o : observed) :
  pysparkPairRes o <> sqlPairRes o -> pairs_check o = pairs_mismatch o.
Proof. intros H. unfold pairs_check. rewrite rows_eqb_neq; auto. Qed.

Lemma in_frequency_stage (o : observed) : In frequency_header (frequency_stage o).
Proof. left. reflexivity. Qed.

Lemma in_pairs_stage (o : observed) : In pairs_header (pairs_stage o).
Proof. left. reflexivity. Qed.

End Run.

(** C8.  Whatever the two paths returned, the run goes through the three
    statistics and the export and ends with the line "results exported to
    CSV.".  When the two answers of a statistic differ, the run prints the
    mismatch notice and both answers, and what follows this report still
    holds the later statistics and the whole export stage with its seven
    files. *)
Theorem mismatch_is_not_fatal (o : Script.observed) :
  (exists before, Script.run o = before ++ Script.export_stage o)
  /\ last (Script.run o) Script.blank = Script.finished
  /\ (Script.sqlCountVal o <> Script.pySparkWordCount o ->
      exists before after mid,
        Script.run o
        = before
          ++ [Script.Print [[Script.Text "NO!: Mismatch! SQL: ";
                             Script.Int (Script.sqlCountVal o);
                             Script.Text ", API: ";
                             Script.Int (Script.pySparkWordCount o)]]]
          ++ after
        /\ In Script.frequency_header after
        /\ In Script.pairs_header after
        /\ after = mid ++ Script.export_stage o)
  /\ (Script.sqlRes o <> Script.pysparkRes o ->
      exists before after mid,
        Script.run o
        = before
          ++ [Script.line "NO!: SQL and API word frequency results DO NOT match!";
              Script.Print [[Script.Text "SQL Top 20:"];
                            [Script.Rows (Script.sqlRes o)]];
              Script.Print [[Script.Text "API Top 20:"];
                            [Script.Rows (Script.pysparkRes o)]]]
          ++ after
        /\ In Script.pairs_header after
        /\ after = mid ++ Script.export_stage o)
  /\ (Script.pysparkPairRes o <> Script.sqlPairRes o ->
      exists before after mid,
        Script.run o
        = before
          ++ [Script.line "NO!: Word pair results DO NOT match!";
              Script.Print [[Script.Text "API Top 20:"];
                            [Script.Rows (Script.pysparkPairRes o)]];
              Script.Print [[Script.Text "SQL Top 20:"];
                            [Script.Rows (Script.sqlPairRes o)]]]
          ++ after
        /\ after = mid ++ Script.export_stage o).
Proof.
  split; [|split; [|split; [|split]]].
  - exists (Script.preamble ++ Script.count_stage o ++ Script.frequency_stage o
            ++ Script.pairs_stage o).
    unfold Script.run. rewrite <- !app_assoc. reflexivity.
  - unfold Script.run. rewrite !app_assoc.
    unfold Script.export_stage.
    match goal with
    | |- last (?pre ++ ?l) _ = _ =>
        change l with (removelast l ++ [Script.finished])
    end.
    rewrite app_assoc. apply last_last.
  - intros H.
    eexists. eexists. eexists.
    split; [|split; [|split]].
    + rewrite run_count_split, (count_check_mismatch o H). reflexivity.
    + rewrite !in_app_iff. right. left. apply in_frequency_stage.
    + rewrite !in_app_iff. right. right. left. apply in_pairs_stage.
    + rewrite !app_assoc. reflexivity.
  - intros H.
    eexists. eexists. eexists.
    split; [|split].
    + rewrite run_frequency_split, (frequency_check_mismatch o H). reflexivity.
    + rewrite !in_app_iff. right. left. apply in_pairs_stage.
    + rewrite !app_assoc. reflexivity.
  - intros H.
    eexists. eexists. eexists.
    split.
    + rewrite run_pairs_split, (pairs_check_mismatch o H). reflexivity.
    + reflexivity.
Qed.

Lemma mismatch_is_not_fatal_witness :
  let o := Script.Observed 5 312 5 140 2210 1985
             [("cat", 2); ("dog", 2); ("bird", 1)]
             [("dog", 2); ("cat", 2); ("bird", 1)]
             4100 3920 [] [] in
  Script.sqlRes o <> Script.pysparkRes o
  /\ exists before after mid,
       Script.run o = before ++ Script.frequency_mismatch o ++ after
       /\ In Script.pairs_header after
       /\ after = mid ++ Script.export_stage o.
Proof.
  intros o.
  assert (H : Script.sqlRes o <> Script.pysparkRes o) by (simpl; discriminate).
  split; [exact H|].
  exact (proj1 (proj2 (proj2 (proj2 (mismatch_is_not_fatal o)))) H).
Defined.

(** * Further properties of the script *)

(** ** The views of the tokenizer *)

Section Views.

Lemma lower_char_kept (c : ascii) :
  is_az c || is_space c = true -> lower_char c = c.
Proof.
  destruct c as [b0 b1 b2 b3 b4 b5 b6 b7].
  destruct b0, b1, b2, b3, b4, b5, b6, b7; intros H;
    (reflexivity || discriminate H).
Qed.

Lemma az_space_plain (c : ascii) :
  is_az c || is_space c = true ->
  is_upper c = false /\ (128 <=? code c)%N = false.
Proof.
  destruct c as [b0 b1 b2 b3 b4 b5 b6 b7].
  destruct b0, b1, b2, b3, b4, b5, b6, b7; intros H;
    (split; reflexivity) || discriminate H.
Qed.

Lemma az_space_normal (s : string) :
  all_chars (fun c => is_az c || is_space c) s = true -> normal s = true.
Proof.
  induction s as [|c r IH]; [reflexivity|].
  intros H. cbn [all_chars] in H. apply andb_true_iff in H as [Hc Hr].
  destruct (az_space_plain c Hc) as [Hu Hb].
  cbn [normal]. rewrite Hu, (IH Hr).
  destruct (special_head (String c r)) eqn:E; [|reflexivity].
  apply special_head_first in E. congruence.
Qed.

Lemma regexp_fixed (s : string) :
  all_chars (fun c => is_az c || is_space c) s = true ->
  regexp_replace not_az_space s = s.
Proof.
  induction s as [|c r IH]; simpl; [reflexivity|].
  intros H. apply andb_true_iff in H as [Hc Hr].
  unfold not_az_space at 1. rewrite Hc. simpl. rewrite (IH Hr). reflexivity.
Qed.

(** A string of letters a to z and white space is left as it is. *)
Lemma clean_fixed (s : string) :
  all_chars (fun c => is_az c || is_space c) s = true ->
  regexp_replace not_az_space (lower s) = s.
Proof.
  intros H. rewrite (normal_fixed s (az_space_normal s H)).
  apply regexp_fixed, H.
Qed.

Lemma cleanedDF_idem (corpus : list string) :
  cleanedDF (cleanedDF corpus) = cleanedDF corpus.
Proof.
  unfold cleanedDF, textDF. rewrite map_map.
  apply map_ext. intros line. apply clean_fixed, cleaned_chars.
Qed.

Lemma cleanedDF_lower (corpus : list string) :
  cleanedDF (map lower corpus) = cleanedDF corpus.
Proof.
  unfold cleanedDF, textDF. rewrite map_map.
  apply map_ext. intros line. rewrite lower_idem. reflexivity.
Qed.

Lemma tokenized_df_app (c1 c2 : list string) :
  tokenized_df (c1 ++ c2) = tokenized_df c1 ++ tokenized_df c2.
Proof. unfold tokenized_df, cleanedDF, textDF. rewrite !map_app. reflexivity. Qed.

Lemma words_df_app (c1 c2 : list string) :
  words_df (c1 ++ c2) = words_df c1 ++ words_df c2.
Proof.
  unfold words_df, explode.
  rewrite tokenized_df_app, concat_app, filter_app. reflexivity.
Qed.

Lemma pySparkPair_app (c1 c2 : list string) :
  pySparkPair (c1 ++ c2) = pySparkPair c1 ++ pySparkPair c2.
Proof.
  rewrite !pySparkPair_rows. unfold explode.
  rewrite tokenized_df_app, map_app, concat_app. reflexivity.
Qed.

Lemma tokenized_df_length (corpus : list string) :
  length (tokenized_df corpus) = length corpus.
Proof. unfold tokenized_df, cleanedDF, textDF. rewrite !length_map. reflexivity. Qed.

Lemma nonblank_iff (w : string) : nonblank w = true <-> w <> EmptyString.
Proof.
  unfold nonblank. rewrite negb_true_iff. apply String.eqb_neq.
Qed.

End Views.

(** X1.  Every row of the flat-token view is a word: a string of the
    letters a to z that is not empty. *)
Theorem words_df_words (corpus : list string) :
  Forall (fun w => az_word w /\ w <> EmptyString) (words_df corpus).
Proof.
  apply Forall_forall. intros w Hw.
  unfold words_df in Hw. apply filter_In in Hw as [Hin Hnb].
  split; [|apply nonblank_iff, Hnb].
  unfold explode in Hin. apply in_concat in Hin as [row [Hrow Hw]].
  pose proof (tokenized_df_az corpus row Hrow) as Haz.
  rewrite Forall_forall in Haz. auto.
Qed.

(** X2.  The line-token view has exactly one row per line of the corpus,
    no row is the empty array, and every
    element of a row is a string of the letters a to z, which may be
    empty. *)
Theorem tokenized_df_rows (corpus : list string) :
  length (tokenized_df corpus) = length corpus
  /\ Forall (fun row => row <> [] /\ Forall az_word row) (tokenized_df corpus).
Proof.
  split.
  - apply tokenized_df_length.
  - apply Forall_forall. intros row Hrow.
    split; [|apply (tokenized_df_az corpus row Hrow)].
    unfold tokenized_df in Hrow. apply in_map_iff in Hrow as [s [<- _]].
    apply split_go_not_nil.
Qed.

(** X3.  Normalising is idempotent and blind to case: tokenizing the
    cleaned lines, or the lowercased lines, gives the same line-token and
    flat-token views as tokenizing the lines themselves. *)
Theorem normalisation_idempotent (corpus : list string) :
  tokenized_df (cleanedDF corpus) = tokenized_df corpus
  /\ words_df (cleanedDF corpus) = words_df corpus
  /\ tokenized_df (map lower corpus) = tokenized_df corpus
  /\ words_df (map lower corpus) = words_df corpus.
Proof.
  assert (H1 : tokenized_df (cleanedDF corpus) = tokenized_df corpus).
  { unfold tokenized_df. rewrite cleanedDF_idem. reflexivity. }
  assert (H2 : tokenized_df (map lower corpus) = tokenized_df corpus).
  { unfold tokenized_df. rewrite cleanedDF_lower. reflexivity. }
  unfold words_df. rewrite H1, H2. auto.
Qed.

(** X4.  The views and the total are additive: the views of two corpora
    put one after the other are the views of the first followed by the
    views of the second, and the word count is the sum of the two word
    counts. *)
Theorem views_additive (c1 c2 : list string) :
  tokenized_df (c1 ++ c2) = tokenized_df c1 ++ tokenized_df c2
  /\ words_df (c1 ++ c2) = words_df c1 ++ words_df c2
  /\ pySparkPair (c1 ++ c2) = pySparkPair c1 ++ pySparkPair c2
  /\ pySparkWordCount (c1 ++ c2) = pySparkWordCount c1 + pySparkWordCount c2.
Proof.
  split; [apply tokenized_df_app|].
  split; [apply words_df_app|].
  split; [apply pySparkPair_app|].
  unfold pySparkWordCount, count.
  rewrite words_df_app, length_app. lia.
Qed.

(** ** A line of words joined by spaces *)

Section Joined.

Lemma is_az_not_blank (c : ascii) : is_az c = true -> is_blank c = false.
Proof.
  intros H. destruct (is_blank c) eqn:E; [|reflexivity].
  apply is_blank_space in E. rewrite (is_az_not_space c H) in E. discriminate.
Qed.

(** A word is read as one piece. *)
Lemma split_go_word (w cur s : string) (b : bool) :
  az_word w ->
  split_go is_space cur b (w ++ s)%string
  = split_go is_space (cur ++ w)%string
             (match w with EmptyString => b | _ => false end) s.
Proof.
  unfold az_word. revert cur b.
  induction w as [|c r IH]; intros cur b H.
  - simpl. rewrite append_nil_r. reflexivity.
  - simpl in H. apply andb_true_iff in H as [Hc Hr].
    cbn [append split_go]. rewrite (is_az_not_space c Hc).
    rewrite (IH _ false Hr), append_assoc. simpl.
    destruct r; reflexivity.
Qed.

Lemma split_go_joined (words : list string) (b : bool) :
  words <> [] ->
  Forall (fun w => az_word w /\ w <> EmptyString) words ->
  split_go is_space EmptyString b (String.concat " " words) = words.
Proof.
  intros Hne F. revert b.
  induction F as [|w rest [Haz Hw] F IH]; intros b; [contradiction|].
  destruct rest as [|w2 rest].
  - simpl. rewrite <- (append_nil_r w) at 1.
    rewrite (@split_go_word w EmptyString EmptyString b Haz). reflexivity.
  - change (String.concat " " (w :: w2 :: rest))
      with (w ++ String " " (String.concat " " (w2 :: rest)))%string.
    rewrite (@split_go_word w EmptyString _ b Haz).
    destruct w as [|c r]; [contradiction|].
    cbn [append split_go]. change (is_space " ") with true. cbv iota.
    f_equal. apply IH. discriminate.
Qed.

Lemma joined_chars (words : list string) :
  Forall az_word words ->
  all_chars (fun c => is_az c || is_space c) (String.concat " " words) = true.
Proof.
  assert (Hw : forall w, az_word w ->
             all_chars (fun c => is_az c || is_space c) w = true).
  { intros w. apply all_chars_impl. intros c H. rewrite H. reflexivity. }
  induction 1 as [|w rest Haz F IH]; [reflexivity|].
  destruct rest as [|w2 rest]; [apply Hw, Haz|].
  change (String.concat " " (w :: w2 :: rest))
    with (w ++ String " " (String.concat " " (w2 :: rest)))%string.
  rewrite all_chars_app, (Hw w Haz). simpl. exact IH.
Qed.

(** A string whose last character is not removable is kept by
    [strip_right]. *)
Lemma strip_right_last (p : ascii -> bool) (s : string) (c : ascii) :
  p c = false ->
  strip_right p (s ++ String c EmptyString) = (s ++ String c EmptyString)%string.
Proof.
  intros Hc. induction s as [|x r IH]; simpl.
  - rewrite Hc. reflexivity.
  - rewrite IH. destruct r; reflexivity.
Qed.

Lemma word_last (w : string) :
  az_word w -> w <> EmptyString ->
  exists s c, w = (s ++ String c EmptyString)%string /\ is_az c = true.
Proof.
  unfold az_word.
  induction w as [|x r IH]; intros H Hne; [contradiction|].
  simpl in H. apply andb_true_iff in H as [Hx Hr].
  destruct r as [|y r].
  - exists EmptyString, x. auto.
  - destruct (IH Hr) as [s [c [E Hc]]]; [discriminate|].
    exists (String x s), c. simpl. rewrite <- E. auto.
Qed.

Lemma joined_last (words : list string) :
  words <> [] ->
  Forall (fun w => az_word w /\ w <> EmptyString) words ->
  exists s c, String.concat " " words = (s ++ String c EmptyString)%string
              /\ is_az c = true.
Proof.
  intros Hne F.
  induction F as [|w rest [Haz Hw] F IH]; [contradiction|].
  destruct rest as [|w2 rest].
  - apply word_last; assumption.
  - destruct IH as [s [c [E Hc]]]; [discriminate|].
    exists (w ++ String " " s)%string, c. split; [|exact Hc].
    change (String.concat " " (w :: w2 :: rest))
      with (w ++ String " " (String.concat " " (w2 :: rest)))%string.
    rewrite E, append_assoc. reflexivity.
Qed.

Lemma trim_joined (words : list string) :
  words <> [] ->
  Forall (fun w => az_word w /\ w <> EmptyString) words ->
  trim (String.concat " " words) = String.concat " " words.
Proof.
  intros Hne F. unfold trim, strip.
  assert (Hl : strip_left is_blank (String.concat " " words)
               = String.concat " " words).
  { destruct words as [|w rest]; [contradiction|].
    apply Forall_inv in F as [Haz Hw].
    destruct w as [|c r]; [contradiction|].
    unfold az_word in Haz. simpl in Haz. apply andb_true_iff in Haz as [Hc _].
    destruct rest; simpl; rewrite (is_az_not_blank c Hc); reflexivity. }
  rewrite Hl.
  destruct (joined_last Hne F) as [s [c [E Hc]]].
  rewrite E. apply strip_right_last, is_az_not_blank, Hc.
Qed.

End Joined.

(** X5.  Round trip: a line made of one or more words, non-empty strings
    of the letters a to z, joined by single spaces, is tokenized into
    exactly these words, in order, in the line-token view and in the
    flat-token view. *)
Theorem tokenize_joined (words : list string) :
  words <> [] ->
  Forall (fun w => az_word w /\ w <> EmptyString) words ->
  tokenized_df [String.concat " " words] = [words]
  /\ words_df [String.concat " " words] = words.
Proof.
  intros Hne F.
  assert (Haz : Forall az_word words)
    by (eapply Forall_impl; [|exact F]; cbv beta; tauto).
  assert (H : tokenized_df [String.concat " " words] = [words]).
  { unfold tokenized_df, cleanedDF, textDF. simpl.
    rewrite (clean_fixed _ (joined_chars Haz)), (trim_joined Hne F).
    unfold split. rewrite (split_go_joined false Hne F). reflexivity. }
  split; [exact H|].
  unfold words_df, explode. rewrite H. simpl. rewrite app_nil_r.
  apply forallb_filter_id. apply forallb_forall. intros w Hw.
  rewrite Forall_forall in F. apply nonblank_iff, (F w Hw).
Qed.

Lemma tokenize_joined_witness :
  tokenized_df [String.concat " " ["the"; "quick"; "fox"]]
  = [["the"; "quick"; "fox"]].
Proof.
  apply (@tokenize_joined ["the"; "quick"; "fox"]).
  - discriminate.
  - repeat constructor; discriminate.
Defined.

(** ** The size of the pairing *)

Section PairingSize.

Lemma combinations_length {A : Type} (l : list A) :
  (2 * length (combinations_with_replacement l) = length l * (length l + 1))%nat.
Proof.
  induction l as [|x r IH]; [reflexivity|].
  change (combinations_with_replacement (x :: r))
    with (map (pair x) (x :: r) ++ combinations_with_replacement r).
  rewrite length_app, length_map. cbn [length]. lia.
Qed.

Lemma sorted_length {A : Type} (leb : A -> A -> bool) (l : list A) :
  length (sorted leb l) = length l.
Proof. symmetry. apply Permutation_length, sorted_perm. Qed.

Lemma nodup_length_le (words : list string) :
  (length (nodup string_dec words) <= length words)%nat.
Proof.
  induction words as [|w words IH]; simpl; [lia|].
  destruct (in_dec string_dec w words); simpl; lia.
Qed.

End PairingSize.

(** X6.  A list with d distinct words gives d (d + 1) / 2 keys, however
    often and in whatever order the words occur; in particular no word
    gives no key, and the number of keys is at least the number of
    distinct words. *)
Theorem generate_pairs_length (words : list string) :
  let d := length (nodup string_dec words) in
  (2 * length (generate_pairs words) = d * (d + 1))%nat
  /\ (d <= length words)%nat
  /\ (d <= length (generate_pairs words))%nat
  /\ (words = [] <-> generate_pairs words = []).
Proof.
  intros d.
  assert (H : (2 * length (generate_pairs words) = d * (d + 1))%nat).
  { unfold generate_pairs, word_pairs. rewrite length_map, combinations_length.
    rewrite sorted_length. reflexivity. }
  split; [exact H|]. split; [apply nodup_length_le|]. split; [nia|].
  split.
  - intros ->. reflexivity.
  - intros E. rewrite E in H. simpl in H.
    destruct words as [|w words]; [reflexivity|]. exfalso.
    assert (Hin : In w (nodup string_dec (w :: words)))
      by (apply nodup_In; left; reflexivity).
    fold d in H. unfold d in H.
    destruct (nodup string_dec (w :: words)); [contradiction | simpl in H; lia].
Qed.

(** X7.  The pairing grows with the words: if every word of one list
    occurs in another, every key of the first list is a key of the
    second. *)
Theorem generate_pairs_monotone (l1 l2 : list string) :
  (forall w, In w l1 -> In w l2) ->
  forall key, In key (generate_pairs l1) -> In key (generate_pairs l2).
Proof.
  intros Hsub key H. unfold generate_pairs in *.
  apply in_map_iff in H as [[a b] [<- Hab]].
  apply in_map_iff. exists (a, b). split; [reflexivity|].
  apply word_pairs_in in Hab as [Ha [Hb Hle]].
  apply word_pairs_in. auto.
Qed.

Lemma generate_pairs_monotone_witness :
  In "a|b" (generate_pairs ["c"; "b"; "a"]).
Proof.
  apply (@generate_pairs_monotone ["b"; "a"] ["c"; "b"; "a"]).
  - simpl. tauto.
  - simpl. tauto.
Defined.

(** ** What the frequency statistic reports *)

Section Frequencies.

Lemma group_count_key_in (rows : list string) (k : string) :
  In k (map fst (group_count rows)) <-> In k rows.
Proof.
  rewrite in_map_iff. split.
  - intros [[k' n] [E H]]. simpl in E. subst k'.
    apply group_count_in in H. tauto.
  - intros H. exists (k, Z.of_nat (count_occ string_dec rows k)).
    split; [reflexivity|]. apply group_count_in. auto.
Qed.

(** One row per distinct key. *)
Lemma group_count_length (rows : list string) :
  length (group_count rows) = length (nodup string_dec rows).
Proof.
  rewrite <- (length_map fst).
  apply Permutation_length, NoDup_Permutation.
  - apply group_count_keys.
  - apply NoDup_nodup.
  - intros k. rewrite group_count_key_in, nodup_In. reflexivity.
Qed.

Lemma limit_keys (table out : list (string * Z)) (k : nat) :
  NoDup (map fst table) -> Permutation table out ->
  NoDup (map fst (limit k out)).
Proof.
  intros ND P. unfold limit.
  assert (ND' : NoDup (map fst out))
    by (eapply Permutation_NoDup; [apply Permutation_map, P | exact ND]).
  rewrite <- (firstn_skipn k out), map_app in ND'.
  apply NoDup_app_remove_r in ND'. exact ND'.
Qed.

Lemma limit_length (table out : list (string * Z)) (k : nat) :
  Permutation table out -> length (limit k out) = Nat.min k (length table).
Proof.
  intros P. unfold limit. rewrite length_firstn, (Permutation_length P).
  reflexivity.
Qed.

Lemma result_in_table (table out : list (string * Z)) (k : nat) (x : string * Z) :
  Permutation table out -> In x (limit k out) -> In x table.
Proof.
  intros P H. apply limit_in in H.
  apply (Permutation_in _ (Permutation_sym P) H).
Qed.

Lemma total_app (l1 l2 : list Z) : total (l1 ++ l2) = total l1 + total l2.
Proof. induction l1 as [|x l1 IH]; simpl; [reflexivity | rewrite IH; lia]. Qed.

Lemma total_perm (l1 l2 : list Z) : Permutation l1 l2 -> total l1 = total l2.
Proof. induction 1; simpl; lia. Qed.

Lemma total_nonneg (l : list Z) : Forall (fun n => 0 <= n) l -> 0 <= total l.
Proof. induction 1; simpl; lia. Qed.

Lemma total_bump (key : string) (table : list (string * Z)) :
  total (map snd (bump key table)) = total (map snd table) + 1.
Proof.
  induction table as [|[k n] table IH]; simpl; [reflexivity|].
  destruct (k =? key)%string; simpl; lia.
Qed.

(** The counts of a grouping add up to the number of rows grouped. *)
Lemma group_count_total (rows : list string) :
  total (map snd (group_count rows)) = count rows.
Proof.
  unfold group_count, count.
  assert (H : forall table,
             total (map snd (fold_left (fun t key => bump key t) rows table))
             = total (map snd table) + Z.of_nat (length rows)).
  { induction rows as [|r rows IH]; intros table.
    - simpl. lia.
    - cbn [fold_left length]. rewrite IH, total_bump. lia. }
  rewrite H. simpl. lia.
Qed.

(** The counts kept by the limit add up to at most the number of rows
    grouped, and to exactly that number when nothing is cut off. *)
Lemma limit_total (rows : list string) (out : list (string * Z)) (k : nat) :
  Permutation (group_count rows) out ->
  total (map snd (limit k out)) <= count rows
  /\ ((length (nodup string_dec rows) <= k)%nat ->
      total (map snd (limit k out)) = count rows).
Proof.
  intros P.
  assert (T : total (map snd out) = count rows).
  { rewrite <- (total_perm (Permutation_map snd P)). apply group_count_total. }
  split.
  - unfold limit. rewrite <- T.
    rewrite <- (firstn_skipn k out) at 2. rewrite map_app, total_app.
    assert (0 <= total (map snd (skipn k out))); [|lia].
    apply total_nonneg, Forall_forall. intros n Hn.
    pose proof (group_count_nonneg rows) as F. rewrite Forall_forall in F.
    apply F. apply in_map_iff in Hn as [x [<- Hx]]. apply in_map.
    apply (Permutation_in _ (Permutation_sym P)).
    rewrite <- (firstn_skipn k out). apply in_or_app. auto.
  - intros Hk. rewrite limit_all; [exact T|].
    rewrite <- (Permutation_length P), group_count_length. exact Hk.
Qed.

(** The results of either path are the first 20 rows of an admissible
    order of the one frequency table. *)
Lemma frequency_result (corpus : list string) (res : list (string * Z)) :
  pysparkRes corpus res \/ sqlRes corpus res ->
  exists out,
    ordered_desc (group_count (words_df corpus)) out /\ res = limit 20 out.
Proof.
  intros [H | H]; [apply pysparkRes_iff, H | apply sqlRes_iff, H].
Qed.

End Frequencies.

(** X8.  Whatever order the engine chooses, a top-20 frequency result of
    either path lists min(20, d) entries, d the number of distinct words
    of the flat-token view; no word is listed twice; the counts never
    increase down the list; and every entry (w, n) is a word w of the
    flat-token view with n the number of its occurrences there, which is
    at least 1. *)
Theorem frequency_entries (corpus : list string) (res : list (string * Z)) :
  pysparkRes corpus res \/ sqlRes corpus res ->
  length res = Nat.min 20 (length (nodup string_dec (words_df corpus)))
  /\ NoDup (map fst res)
  /\ StronglySorted by_count_desc res
  /\ (forall w n, In (w, n) res ->
        In w (words_df corpus)
        /\ n = occurrences w (words_df corpus)
        /\ 1 <= n).
Proof.
  intros H. apply frequency_result in H as [out [[P S] ->]].
  split; [rewrite (@limit_length _ _ 20 P); rewrite group_count_length; reflexivity|].
  split; [apply (@limit_keys _ _ 20 (group_count_keys _) P)|].
  split; [apply (@limit_ordered _ _ 20 (conj P S))|].
  intros w n Hin.
  apply (@result_in_table _ _ 20 _ P), group_count_in in Hin as [Hw ->].
  split; [exact Hw|]. split; [reflexivity|].
  apply (count_occ_In string_dec) in Hw. lia.
Qed.

Lemma frequency_entries_witness :
  length [("cat", 2); ("dog", 1)] = 2%nat
  /\ NoDup (map fst [("cat", 2); ("dog", 1)]).
Proof.
  assert (HA : pysparkRes ["cat dog cat"] [("cat", 2); ("dog", 1)]).
  { exists [("cat", 2); ("dog", 1)]. split; [|reflexivity].
    split; [apply Permutation_refl|].
    repeat constructor. unfold by_count_desc. simpl. lia. }
  destruct (@frequency_entries ["cat dog cat"] _ (or_introl HA)) as [Hl [Hd _]].
  split; [exact Hl | exact Hd].
Defined.

(** X9.  The list is a top list: a word of the flat-token view that a
    result of either path leaves out occurs at most as often as every
    word that the result lists. *)
Theorem frequency_top (corpus : list string) (res : list (string * Z)) :
  pysparkRes corpus res \/ sqlRes corpus res ->
  forall w n w',
    In (w, n) res -> In w' (words_df corpus) -> ~ In w' (map fst res) ->
    occurrences w' (words_df corpus) <= n.
Proof.
  intros H w n w' Hin Hw' Hout.
  apply frequency_result in H as [out [Hord ->]].
  destruct (@limit_ordered _ _ 20 Hord) as [_ Hcut].
  apply (Hcut (w, n) (w', occurrences w' (words_df corpus))).
  - exact Hin.
  - apply group_count_in. auto.
  - intros Hin'. apply Hout. apply (in_map fst) in Hin'. exact Hin'.
Qed.

Lemma frequency_top_witness :
  occurrences "u" (words_df ["a b c d e f g h i j k l m n o p q r s t u"]) <= 1.
Proof.
  set (corpus := ["a b c d e f g h i j k l m n o p q r s t u"]).
  set (table := map (fun w : string => (w, 1)) (words_df corpus)).
  assert (HA : pysparkRes corpus (limit 20 table)).
  { exists table. split; [|reflexivity].
    replace (withColumnRenamed "count" "frequency" (group_count (words_df corpus)))
      with table by (vm_compute; reflexivity).
    apply same_count_ordered with (c := 1); [|apply Permutation_refl].
    apply Forall_forall. intros x Hx. unfold table in Hx.
    apply in_map_iff in Hx as [w [<- _]]. reflexivity. }
  apply (@frequency_top corpus _ (or_introl HA) "a" 1 "u").
  - vm_compute. tauto.
  - vm_compute. tauto.
  - vm_compute. intros H.
    repeat (destruct H as [H | H]; [discriminate H|]). exact H.
Defined.

(** X10.  The frequencies that a result of either path lists add up to at
    most the total word count, and to exactly the total word count when
    the flat-token view has no more than 20 distinct words. *)
Theorem frequency_total (corpus : list string) (res : list (string * Z)) :
  pysparkRes corpus res \/ sqlRes corpus res ->
  total (map snd res) <= pySparkWordCount corpus
  /\ ((length (nodup string_dec (words_df corpus)) <= 20)%nat ->
      total (map snd res) = pySparkWordCount corpus).
Proof.
  intros H. apply frequency_result in H as [out [[P _] ->]].
  apply (@limit_total (words_df corpus) out 20 P).
Qed.

Lemma frequency_total_witness :
  total (map snd [("cat", 2); ("dog", 1)]) = pySparkWordCount ["cat dog cat"].
Proof.
  assert (HA : pysparkRes ["cat dog cat"] [("cat", 2); ("dog", 1)]).
  { exists [("cat", 2); ("dog", 1)]. split; [|reflexivity].
    split; [apply Permutation_refl|].
    repeat constructor. unfold by_count_desc. simpl. lia. }
  apply (proj2 (@frequency_total ["cat dog cat"] _ (or_introl HA))).
  simpl. lia.
Defined.

(** ** What the pair statistic reports *)

Section PairCounts.

Lemma mem_iff (w : string) (row : list string) : mem w row = true <-> In w row.
Proof.
  unfold mem. rewrite existsb_exists. split.
  - intros [x [Hx E]]. apply String.eqb_eq in E. subst x. exact Hx.
  - intros H. exists w. split; [exact H | apply String.eqb_refl].
Qed.

(** A row gives a key once if it holds both words, the smaller first, and
    not at all otherwise. *)
Lemma row_key_count (row : list string) (a b : string) :
  Forall bar_free row -> bar_free a ->
  count_occ string_dec (generate_pairs row) (pair_key (a, b))
  = if mem a row && mem b row && String.leb a b then 1%nat else 0%nat.
Proof.
  intros Hrow Ha.
  assert (Hin : In (pair_key (a, b)) (generate_pairs row)
                <-> mem a row && mem b row && String.leb a b = true).
  { rewrite !andb_true_iff, !mem_iff. split.
    - intros H. apply (@generate_pairs_in_key a b row Hrow Ha) in H.
      apply word_pairs_in in H. unfold string_le in H. tauto.
    - intros [[H1 H2] H3]. unfold generate_pairs.
      apply in_map_iff. exists (a, b). split; [reflexivity|].
      apply word_pairs_in. unfold string_le. auto. }
  destruct (mem a row && mem b row && String.leb a b).
  - pose proof (proj1 (NoDup_count_occ string_dec _)
                  (generate_pairs_NoDup Hrow) (pair_key (a, b))) as Hle.
    pose proof (proj1 (count_occ_In string_dec _ _) (proj2 Hin eq_refl)) as Hgt.
    lia.
  - apply count_occ_not_In. intros H. apply Hin in H. discriminate.
Qed.

Lemma pySparkPair_cons (line : string) (corpus : list string) :
  exists row,
    tokenized_df (line :: corpus) = row :: tokenized_df corpus
    /\ pySparkPair (line :: corpus) = generate_pairs row ++ pySparkPair corpus.
Proof.
  eexists. split; [reflexivity|]. rewrite !pySparkPair_rows. reflexivity.
Qed.

(** The number of times a key is emitted is the number of rows of the
    line-token view that hold both of its words. *)
Lemma key_count (corpus : list string) (a b : string) :
  bar_free a ->
  count_occ string_dec (pySparkPair corpus) (pair_key (a, b))
  = if String.leb a b then length (rows_with a b corpus) else 0%nat.
Proof.
  intros Ha. unfold rows_with.
  induction corpus as [|line corpus IH].
  - simpl. destruct (String.leb a b); reflexivity.
  - destruct (pySparkPair_cons line corpus) as [row [Et Ep]].
    assert (Hrow : Forall bar_free row).
    { apply (tokenized_df_bar_free (line :: corpus)). rewrite Et. left. reflexivity. }
    rewrite Ep, Et, count_occ_app, IH, (@row_key_count row a b Hrow Ha).
    simpl. destruct (mem a row && mem b row), (String.leb a b); simpl; lia.
Qed.

Lemma rows_with_le (a b : string) (corpus : list string) :
  (length (rows_with a b corpus) <= length (rows_with a a corpus))%nat
  /\ (length (rows_with a b corpus) <= length (rows_with b b corpus))%nat
  /\ (length (rows_with a b corpus) <= length corpus)%nat.
Proof.
  unfold rows_with.
  rewrite <- (tokenized_df_length corpus).
  induction (tokenized_df corpus) as [|row rows IH]; simpl; [lia|].
  destruct (mem a row), (mem b row); simpl; lia.
Qed.

(** The sorted results of either path are the sorted first 20 rows of an
    admissible order of the one table of pair counts. *)
Lemma pair_result (corpus : list string) (res : list (string * Z)) :
  pysparkPairRes corpus res \/ sqlPairRes corpus res ->
  exists out,
    ordered_desc (group_count (pySparkPair corpus)) out
    /\ res = sorted tuple_leb (limit 20 out).
Proof.
  intros H.
  assert (HA : pysparkPairRes corpus res)
    by (destruct H as [H | H]; [exact H | apply sqlPairRes_iff, H]).
  destruct HA as [rows [[out [Hord ->]] ->]]. eauto.
Qed.

End PairCounts.

(** X11.  Every entry (key, n) of a sorted top-20 pair result of either
    path has a key "a|b" made of two strings of the letters a to z with
    a <= b, and n is the number of rows of the line-token view that hold
    both a and b: at least 1 and at most the number of lines. *)
Theorem pair_entries (corpus : list string) (res : list (string * Z)) :
  pysparkPairRes corpus res \/ sqlPairRes corpus res ->
  forall key n,
    In (key, n) res ->
    exists a b,
      key = (a ++ "|" ++ b)%string
      /\ az_word a /\ az_word b /\ string_le a b
      /\ n = Z.of_nat (length (rows_with a b corpus))
      /\ 1 <= n <= Z.of_nat (length corpus).
Proof.
  intros H key n Hin.
  apply pair_result in H as [out [[P _] ->]].
  apply sorted_in in Hin.
  apply (@result_in_table _ _ 20 _ P), group_count_in in Hin as [Hkey ->].
  pose proof (proj1 (count_occ_In string_dec _ _) Hkey) as Hpos.
  apply pySparkPair_keys in Hkey
    as [row [a [b [_ [_ [_ [Ha [Hb [Hle ->]]]]]]]]].
  exists a, b. repeat split; try assumption.
  - change (a ++ "|" ++ b)%string with (pair_key (a, b)).
    rewrite (key_count corpus b (az_word_bar_free Ha)), Hle. reflexivity.
  - lia.
  - change (a ++ "|" ++ b)%string with (pair_key (a, b)).
    rewrite (key_count corpus b (az_word_bar_free Ha)), Hle.
    pose proof (rows_with_le a b corpus). lia.
Qed.

Lemma pair_entries_witness :
  exists a b,
    "a|b" = (a ++ "|" ++ b)%string
    /\ az_word a /\ az_word b /\ string_le a b
    /\ 1 = Z.of_nat (length (rows_with a b ["b a"]))
    /\ 1 <= 1 <= Z.of_nat (length ["b a"]).
Proof.
  assert (HA : pysparkPairRes ["b a"] [("a|a", 1); ("a|b", 1); ("b|b", 1)]).
  { exists [("a|a", 1); ("a|b", 1); ("b|b", 1)]. split; [|reflexivity].
    exists [("a|a", 1); ("a|b", 1); ("b|b", 1)]. split; [|reflexivity].
    apply same_count_ordered with (c := 1); [repeat constructor | apply Permutation_refl]. }
  apply (@pair_entries ["b a"] _ (or_introl HA) "a|b" 1).
  simpl. tauto.
Defined.

(** X12.  In the rows that the pair statistic groups, the key of two
    words a <= b occurs once for every line that holds both; a key with
    the greater word first never occurs; and two words occur together at
    most as often as the self-pair of either, the self-pair of a word
    being counted once for every line that holds the word. *)
Theorem pair_key_counts (corpus : list string) (a b : string) :
  bar_free a -> bar_free b ->
  (string_le a b ->
     occurrences (a ++ "|" ++ b)%string (pySparkPair corpus)
     = Z.of_nat (length (rows_with a b corpus)))
  /\ (~ string_le a b -> ~ In (a ++ "|" ++ b)%string (pySparkPair corpus))
  /\ occurrences (a ++ "|" ++ b)%string (pySparkPair corpus)
     <= occurrences (a ++ "|" ++ a)%string (pySparkPair corpus)
  /\ occurrences (a ++ "|" ++ b)%string (pySparkPair corpus)
     <= occurrences (b ++ "|" ++ b)%string (pySparkPair corpus).
Proof.
  intros Ha Hb. unfold occurrences, string_le.
  change (a ++ "|" ++ b)%string with (pair_key (a, b)).
  change (a ++ "|" ++ a)%string with (pair_key (a, a)).
  change (b ++ "|" ++ b)%string with (pair_key (b, b)).
  rewrite (key_count corpus b Ha), (key_count corpus a Ha), (key_count corpus b Hb).
  assert (Haa : String.leb a a = true) by (apply string_leb_iff; auto).
  assert (Hbb : String.leb b b = true) by (apply string_leb_iff; auto).
  rewrite Haa, Hbb.
  pose proof (rows_with_le a b corpus) as [H1 [H2 _]].
  split; [intros ->; reflexivity|].
  split.
  - intros Hn. apply (count_occ_not_In string_dec).
    rewrite (key_count corpus b Ha).
    destruct (String.leb a b); [contradiction | reflexivity].
  - destruct (String.leb a b); lia.
Qed.

Lemma pair_key_counts_witness :
  occurrences "cat|dog" (pySparkPair ["cat dog cat"; "dog bird"])
  = Z.of_nat (length (rows_with "cat" "dog" ["cat dog cat"; "dog bird"])).
Proof.
  apply (@pair_key_counts ["cat dog cat"; "dog bird"] "cat" "dog");
    reflexivity.
Defined.

(** X13.  A sorted top-20 pair result of either path lists min(20, d)
    entries, d the number of distinct keys emitted; no key is listed
    twice; the entries are in the increasing order of Python's tuples; and
    a key that is emitted but left out of the result occurs at most as
    often as every key that the result lists. *)
Theorem pair_top (corpus : list string) (res : list (string * Z)) :
  pysparkPairRes corpus res \/ sqlPairRes corpus res ->
  length res = Nat.min 20 (length (nodup string_dec (pySparkPair corpus)))
  /\ NoDup (map fst res)
  /\ StronglySorted (fun x y => tuple_leb x y = true) res
  /\ (forall key n key',
        In (key, n) res -> In key' (pySparkPair corpus) ->
        ~ In key' (map fst res) ->
        occurrences key' (pySparkPair corpus) <= n).
Proof.
  intros H. apply pair_result in H as [out [Hord ->]].
  pose proof Hord as [P _].
  pose proof (sorted_perm tuple_leb (limit 20 out)) as Ps.
  split.
  - rewrite <- (Permutation_length Ps), (@limit_length _ _ 20 P).
    rewrite group_count_length. reflexivity.
  - split.
    + eapply Permutation_NoDup; [apply Permutation_map, Ps|].
      apply (@limit_keys _ _ 20 (group_count_keys _) P).
    + split.
      * apply sorted_sorted; [apply tuple_leb_total | apply tuple_leb_trans].
      * intros key n key' Hin Hkey' Hout.
        destruct (@limit_ordered _ _ 20 Hord) as [_ Hcut].
        apply (Hcut (key, n) (key', occurrences key' (pySparkPair corpus))).
        -- apply sorted_in in Hin. exact Hin.
        -- apply group_count_in. auto.
        -- intros Hin'. apply Hout.
           apply (sorted_in tuple_leb), (in_map fst) in Hin'. exact Hin'.
Qed.

Lemma pair_top_witness :
  occurrences "f|f" (pySparkPair ["a b c d e f"]) <= 1.
Proof.
  set (corpus := ["a b c d e f"]).
  set (table := map (fun key : string => (key, 1)) (pySparkPair corpus)).
  assert (HA : pysparkPairRes corpus (sorted tuple_leb (limit 20 table))).
  { exists (limit 20 table). split; [|reflexivity].
    exists table. split; [|reflexivity].
    replace (group_count (pySparkPair corpus)) with table
      by (vm_compute; reflexivity).
    apply same_count_ordered with (c := 1); [|apply Permutation_refl].
    apply Forall_forall. intros x Hx. unfold table in Hx.
    apply in_map_iff in Hx as [w [<- _]]. reflexivity. }
  apply (proj2 (proj2 (proj2 (@pair_top corpus _ (or_introl HA)))) "a|a" 1 "f|f").
  - vm_compute. tauto.
  - vm_compute. tauto.
  - vm_compute. intros H.
    repeat (destruct H as [H | H]; [discriminate H|]). exact H.
Defined.

(** ** The session and its views *)

Section Session.

Lemma sql_same_table (s1 s2 : session) (q : query) :
  sql_table s2 q = sql_table s1 q ->
  forall res, sql s2 q res <-> sql s1 q res.
Proof.
  intros E res. unfold sql, sql_unordered. rewrite E. reflexivity.
Qed.

(** A view registered under another name does not change the table of a
    query. *)
Lemma sql_table_other_view (name : string) (df : frame) (s : session) (q : query) :
  q_from q <> name ->
  sql_table (createOrReplaceTempView name df s) q = sql_table s q.
Proof.
  intros Hn. unfold sql_table, createOrReplaceTempView. simpl.
  destruct (String.eqb_spec name (q_from q)) as [E | _]; [|reflexivity].
  symmetry in E. contradiction.
Qed.

(** Registering the same view twice is registering it once. *)
Lemma sql_table_same_view (name : string) (df : frame) (s : session) (q : query) :
  sql_table (createOrReplaceTempView name df (createOrReplaceTempView name df s)) q
  = sql_table (createOrReplaceTempView name df s) q.
Proof.
  unfold sql_table, createOrReplaceTempView. simpl.
  destruct (name =? q_from q)%string; reflexivity.
Qed.

End Session.

(** X14.  The pair query reads the view pair_table: in the session as it
    is before CREATE OR REPLACE TEMP VIEW pair_table the query does not
    resolve and has no result.  The statement that creates the view
    succeeds for every corpus, and in the session that it leaves, every
    query over another view has the results it had before. *)
Theorem pair_view_needed (corpus : list string) :
  (forall res, ~ sql (spark corpus) sqlPairFreq_query res)
  /\ exists s,
       spark_pairs corpus = Some s
       /\ forall q res,
            q_from q <> "pair_table" ->
            (sql s q res <-> sql (spark corpus) q res).
Proof.
  split.
  - intros res H. exact H.
  - eexists. split; [apply spark_pairs_session|].
    intros q res Hq. apply sql_same_table, sql_table_other_view, Hq.
Qed.

Lemma pair_view_needed_witness :
  exists s,
    spark_pairs ["cat dog"] = Some s
    /\ forall res,
         sql s sqlFrequency_query res <-> sql (spark ["cat dog"]) sqlFrequency_query res.
Proof.
  destruct (pair_view_needed ["cat dog"]) as [_ [s [Hs H]]].
  exists s. split; [exact Hs|].
  intros res. apply H. discriminate.
Defined.

(** X15.  CREATE OR REPLACE is idempotent: running the statement that
    creates pair_table a second time succeeds and leaves every query with
    exactly the results it had after the first time. *)
Theorem create_view_twice (corpus : list string) (s1 : session) :
  spark_pairs corpus = Some s1 ->
  exists s2,
    create_view_as "pair_table" pair_table_query s1 = Some s2
    /\ forall q res, sql s2 q res <-> sql s1 q res.
Proof.
  intros H. rewrite spark_pairs_session in H. inversion H; subst s1. clear H.
  eexists. split; [reflexivity|].
  intros q res. apply sql_same_table, sql_table_same_view.
Qed.

Lemma create_view_twice_witness :
  exists s1 s2,
    spark_pairs ["cat dog"] = Some s1
    /\ create_view_as "pair_table" pair_table_query s1 = Some s2
    /\ forall res, sql s2 sqlPairFreq_query res <-> sql s1 sqlPairFreq_query res.
Proof.
  eexists.
  destruct (@create_view_twice ["cat dog"] _ (spark_pairs_session ["cat dog"]))
    as [s2 [H2 H]].
  exists s2. split; [apply spark_pairs_session|]. split; [exact H2|].
  intros res. apply H.
Defined.

(** ** The checks on what the engine returns *)

Section Checks.

Lemma rows_eqb_refl (l : list (string * Z)) : Script.rows_eqb l l = true.
Proof. apply rows_eqb_eq. reflexivity. Qed.

End Checks.

(** X16.  The total-count check cannot report a mismatch: for every
    corpus, when the script holds the two totals that the engine returns,
    the check prints the line saying that the word counts match, with the
    total. *)
Theorem count_check_matches (corpus : list string) (o : Script.observed) :
  Script.pySparkWordCount o = pySparkWordCount corpus ->
  sqlCountVal corpus = Some (Script.sqlCountVal o) ->
  Script.count_check o
  = [Script.Print [[Script.Text "YES!: Word counts match! Total words: ";
                    Script.Int (pySparkWordCount corpus)]]].
Proof.
  intros HA HB.
  assert (E : Script.sqlCountVal o = pySparkWordCount corpus).
  { unfold sqlCountVal in HB. simpl in HB. inversion HB as [E].
    unfold pySparkWordCount. apply count_star_count. }
  unfold Script.count_check. rewrite HA, E, Z.eqb_refl. reflexivity.
Qed.

Lemma count_check_matches_witness :
  Script.count_check
    (Script.Observed 3 0 3 0 0 0 [] [] 0 0 [] [])
  = [Script.Print [[Script.Text "YES!: Word counts match! Total words: ";
                    Script.Int (pySparkWordCount ["cat dog cat"])]]].
Proof.
  apply (@count_check_matches ["cat dog cat"]); reflexivity.
Defined.

(** X17.  When no two words of the corpus have the same count, the
    frequency check reports a match for whatever results the two paths
    return. *)
Theorem frequency_check_matches (corpus : list string) (o : Script.observed) :
  pysparkRes corpus (Script.pysparkRes o) ->
  sqlRes corpus (Script.sqlRes o) ->
  NoDup (map snd (group_count (words_df corpus))) ->
  Script.frequency_check o
  = [Script.line "YES!: SQL and API word frequency results MATCH for top 20 words."].
Proof.
  intros HA HB ND.
  apply pysparkRes_iff in HA as [oA [HoA EA]].
  apply sqlRes_iff in HB as [oB [HoB EB]].
  unfold Script.frequency_check.
  rewrite EA, EB, (ordered_desc_unique ND HoA HoB), rows_eqb_refl. reflexivity.
Qed.

Lemma frequency_check_matches_witness :
  Script.frequency_check
    (Script.Observed 3 0 3 0 0 0 [("cat", 2); ("dog", 1)] [("cat", 2); ("dog", 1)]
                     0 0 [] [])
  = [Script.line "YES!: SQL and API word frequency results MATCH for top 20 words."].
Proof.
  assert (HA : pysparkRes ["cat dog cat"] [("cat", 2); ("dog", 1)]).
  { exists [("cat", 2); ("dog", 1)]. split; [|reflexivity].
    split; [apply Permutation_refl|].
    repeat constructor. unfold by_count_desc. simpl. lia. }
  apply (@frequency_check_matches ["cat dog cat"]).
  - exact HA.
  - apply sqlRes_iff, pysparkRes_iff, HA.
  - simpl. repeat constructor; simpl; intuition discriminate.
Defined.

(** X18.  When the corpus gives at most 20 distinct pair keys, the pair
    check reports a match for whatever results the two paths return. *)
Theorem pairs_check_matches (corpus : list string) (o : Script.observed) :
  pysparkPairRes corpus (Script.pysparkPairRes o) ->
  sqlPairRes corpus (Script.sqlPairRes o) ->
  (length (nodup string_dec (pySparkPair corpus)) <= 20)%nat ->
  Script.pairs_check o
  = [Script.line "YES!: Word pair results MATCH between API and SQL."].
Proof.
  intros HA HB Hlen.
  rewrite <- group_count_length in Hlen.
  apply sqlPairRes_iff in HB.
  unfold Script.pairs_check.
  rewrite (pysparkPairRes_whole Hlen HA), (pysparkPairRes_whole Hlen HB).
  rewrite rows_eqb_refl. reflexivity.
Qed.

Lemma pairs_check_matches_witness :
  Script.pairs_check
    (Script.Observed 2 0 2 0 0 0 [] [] 0 0
                     [("a|a", 1); ("a|b", 1); ("b|b", 1)]
                     [("a|a", 1); ("a|b", 1); ("b|b", 1)])
  = [Script.line "YES!: Word pair results MATCH between API and SQL."].
Proof.
  assert (HA : pysparkPairRes ["b a"] [("a|a", 1); ("a|b", 1); ("b|b", 1)]).
  { exists [("a|a", 1); ("a|b", 1); ("b|b", 1)]. split; [|reflexivity].
    exists [("a|a", 1); ("a|b", 1); ("b|b", 1)]. split; [|reflexivity].
    apply same_count_ordered with (c := 1); [repeat constructor | apply Permutation_refl]. }
  apply (@pairs_check_matches ["b a"]).
  - exact HA.
  - apply sqlPairRes_iff, HA.
  - simpl. lia.
Defined.

(** X19.  Whatever the six results and whichever checks fail, a run writes
    the same seven files, each once and in the same order, and it writes
    none of them before the last check has been printed. *)
Theorem run_written (o : Script.observed) :
  written (Script.run o)
  = ["sql_word_count.csv"; "api_word_count.csv"; "sql_word_frequency.csv";
     "api_word_frequency.csv"; "sql_word_pairs.csv"; "api_word_pairs.csv";
     "runtime_comparison.csv"]
  /\ NoDup (written (Script.run o))
  /\ exists before,
       Script.run o = before ++ Script.export_stage o /\ written before = [].
Proof.
  assert (Happ : forall t1 t2, written (t1 ++ t2) = written t1 ++ written t2).
  { induction t1 as [|e t1 IH]; intros t2; [reflexivity|].
    destruct e; simpl; rewrite IH; reflexivity. }
  assert (Hbefore : written (Script.preamble ++ Script.count_stage o
                             ++ Script.frequency_stage o ++ Script.pairs_stage o) = []).
  { unfold Script.count_stage, Script.frequency_stage, Script.pairs_stage,
      Script.count_check, Script.frequency_check, Script.pairs_check.
    rewrite !Happ.
    destruct (Script.sqlCountVal o =? Script.pySparkWordCount o),
      (Script.rows_eqb (Script.sqlRes o) (Script.pysparkRes o)),
      (Script.rows_eqb (Script.pysparkPairRes o) (Script.sqlPairRes o));
      reflexivity. }
  assert (Hrun : Script.run o
                 = (Script.preamble ++ Script.count_stage o
                    ++ Script.frequency_stage o ++ Script.pairs_stage o)
                   ++ Script.export_stage o).
  { unfold Script.run. rewrite <- !app_assoc. reflexivity. }
  assert (Hw : written (Script.run o)
               = ["sql_word_count.csv"; "api_word_count.csv"; "sql_word_frequency.csv";
                  "api_word_frequency.csv"; "sql_word_pairs.csv"; "api_word_pairs.csv";
                  "runtime_comparison.csv"]).
  { rewrite Hrun, Happ, Hbefore. reflexivity. }
  split; [exact Hw|]. split.
  - rewrite Hw. repeat constructor; simpl; intuition discriminate.
  - eexists. split; [exact Hrun | exact Hbefore].
Qed.

(** ** From the paragraphs to the corpus *)

Section Extractor.



End Extractor.


